(** * builder/qemu/step_run.go: the step that launches the virtual machine

    A shallow embedding of [stepRun.Run], [stepRun.Cleanup],
    [getCommandArgs] and [processArgs], and the properties of the argument
    synthesis: how the rendered [QemuArgs] rows override the computed
    defaults and how the result is flattened into the command line.

    Go maps are [gmap]s.  The order in which [range] visits a map is left
    open by the language; it is an explicit parameter here ([RangeOrder]).
    A failed type assertion or an index out of range is a panic.  The UI,
    the driver and the standard logger are collaborators: the model records
    what they are asked to do in a [World]. *)

From stdpp Require Import gmap strings list fin_maps pretty.
From Stdlib Require Import ZArith.

Open Scope string_scope.
Open Scope Z_scope.
Open Scope list_scope.

(* stdpp's solvers clear hypotheses that are sometimes already gone. *)
Set Warnings "-clear-no-such-hyp".

(** ** Go's [uint] *)

(** [uint] is 32 or 64 bits wide, depending on the platform. *)
Inductive WordSize := Bits32 | Bits64.

Definition bits (a : WordSize) : Z :=
  match a with Bits32 => 32 | Bits64 => 64 end.

Definition uint_modulus (a : WordSize) : Z := 2 ^ bits a.

(** [x - y] on [uint]: the difference modulo [2^w], never negative. *)
Definition uint_sub (a : WordSize) (x y : Z) : Z := (x - y) mod uint_modulus a.

(** [%d] and [%v] of a [uint]: its decimal digits. *)
Definition fmt_uint (n : Z) : string := pretty n.

(** [strings.Join(elems, sep)]. *)
Definition strings_Join (elems : list string) (sep : string) : string :=
  String.concat sep elems.

(** An [error] is modelled by its message, which is all this file reads of
    it ([%s] in [fmt.Errorf] and [fmt.Sprintf]). *)
Definition error := string.

(** ** Iterating over a Go map *)

(** The order in which [range] visits the entries of a map.  [visit] is
    handed the entries in the canonical order of [map_to_list] and returns
    them in the order of the run. *)
Record RangeOrder := { visit : ∀ A : Type, list (string * A) → list (string * A) }.

(** [range] visits every entry of the map exactly once. *)
Definition fair (ro : RangeOrder) : Prop :=
  ∀ (A : Type) (l : list (string * A)), visit ro A l ≡ₚ l.

Definition range {A} (ro : RangeOrder) (m : gmap string A) : list (string * A) :=
  visit ro A (map_to_list m).

(** Two orders used by the examples: the canonical one and its reverse. *)
Definition canonical_order : RangeOrder := {| visit := λ A l, l |}.
Definition reverse_order : RangeOrder := {| visit := λ A l, reverse l |}.

(** ** The argument merger (getCommandArgs, lines 108 and 126-162) *)

(** One turn of the loop of lines 129-138 over a rendered row.  [None] is
    the panic of [qemuArgs[0]] on a row without elements. *)
Definition overrideRow (inArgs : gmap string (list string)) (qemuArgs : list string)
  : option (gmap string (list string)) :=
  match qemuArgs with
  | [] => None
  | key :: rest =>
      let val := strings_Join rest "" in
      let inArgs :=
        match inArgs !! key with
        | Some _ => inArgs
        | None => <[key := []]> inArgs
        end in
      Some (if decide (0 < String.length val)%nat
            then <[key := default [] (inArgs !! key) ++ [val]]> inArgs
            else inArgs)
  end.

(** Lines 108 and 129-138: [inArgs] after all the rows. *)
Fixpoint overrideArgs (inArgs : gmap string (list string)) (newQemuArgs : list (list string))
  : option (gmap string (list string)) :=
  match newQemuArgs with
  | [] => Some inArgs
  | qemuArgs :: rows =>
      match overrideRow inArgs qemuArgs with
      | Some inArgs' => overrideArgs inArgs' rows
      | None => None
      end
  end.

(** Lines 143-147: the body of the loop over the keys of [defaultArgs].
    Reading a Go map at a missing key gives the zero value. *)
Definition backfillKey (defaultArgs : gmap string string)
    (inArgs : gmap string (list string)) (key : string) : gmap string (list string) :=
  match inArgs !! key with
  | Some _ => inArgs
  | None => <[key := [default "" (defaultArgs !! key)]]> inArgs
  end.

(** Lines 142-148. *)
Definition backfill (ro : RangeOrder) (defaultArgs : gmap string string)
    (inArgs : gmap string (list string)) : gmap string (list string) :=
  foldl (backfillKey defaultArgs) inArgs (range ro defaultArgs).*1.

(** Lines 153-159: what one entry of [inArgs] appends to [outArgs]. *)
Definition flattenEntry (outArgs : list string) (entry : string * list string)
  : list string :=
  let '(key, values) := entry in
  if decide (0 < length values)%nat
  then foldl (λ out v, out ++ [key; v]) outArgs values
  else outArgs ++ [key].

(** Lines 151-160. *)
Definition flatten (ro : RangeOrder) (inArgs : gmap string (list string)) : list string :=
  foldl flattenEntry [] (range ro inArgs).

(** Lines 108 and 126-162 as one function of the rendered rows and of the
    defaults; [None] is a panic. *)
Definition mergeArgs (ro : RangeOrder) (newQemuArgs : list (list string))
    (defaultArgs : gmap string string) : option (list string) :=
  match overrideArgs ∅ newQemuArgs with
  | Some inArgs => Some (flatten ro (backfill ro defaultArgs inArgs))
  | None => None
  end.

(** ** The output as a sequence of groups

    Each [append] of the flattening loop adds either a key with one of its
    values or a key alone.  [Emitted] names these groups, so that a property
    of "the pairs of a key" has a meaning on a flat list where a value may
    be spelled like a key. *)
Inductive Emitted :=
| Bare (key : string)
| Pair (key value : string).

Global Instance Emitted_eq_dec : EqDecision Emitted.
Proof. solve_decision. Defined.

Definition tokens (e : Emitted) : list string :=
  match e with
  | Bare key => [key]
  | Pair key value => [key; value]
  end.

Definition key_of (e : Emitted) : string :=
  match e with Bare key => key | Pair key _ => key end.

(** The groups of one entry: the same case distinction as [flattenEntry]. *)
Definition emitEntry (entry : string * list string) : list Emitted :=
  let '(key, values) := entry in
  if decide (0 < length values)%nat then Pair key <$> values else [Bare key].

Definition flattenGroups (ro : RangeOrder) (inArgs : gmap string (list string))
  : list Emitted :=
  range ro inArgs ≫= emitEntry.

Definition mergeGroups (ro : RangeOrder) (newQemuArgs : list (list string))
    (defaultArgs : gmap string string) : option (list Emitted) :=
  match overrideArgs ∅ newQemuArgs with
  | Some inArgs => Some (flattenGroups ro (backfill ro defaultArgs inArgs))
  | None => None
  end.

(** The groups of a key, and the values paired with it, in output order. *)
Definition groups_of (k : string) (out : list Emitted) : list Emitted :=
  filter (λ e, key_of e = k) out.

Definition values_of (k : string) (out : list Emitted) : list string :=
  omap (λ e, match e with
             | Pair key v => if decide (key = k) then Some v else None
             | Bare _ => None
             end) out.

(** Reading an output back as a map from key to ordered value list. *)
Definition recordGroup (m : gmap string (list string)) (e : Emitted)
  : gmap string (list string) :=
  match e with
  | Bare key => <[key := default [] (m !! key)]> m
  | Pair key v => <[key := default [] (m !! key) ++ [v]]> m
  end.

Definition buckets_of (out : list Emitted) : gmap string (list string) :=
  foldl recordGroup ∅ out.

(** ** The override rows, read as the specification reads them *)

(** The keys of the rows and, for a key, the non-empty concatenated values
    of its rows, first row first. *)
Definition override_keys (O : list (list string)) : list string :=
  omap head O.

Definition override_values (k : string) (O : list (list string)) : list string :=
  omap (λ row, match row with
               | key :: rest =>
                   if decide (key = k ∧ strings_Join rest "" ≠ "")
                   then Some (strings_Join rest "") else None
               | [] => None
               end) O.

(** The bucket the specification gives a key: the override values when the
    key has a row, the default alone otherwise. *)
Definition bucket (O : list (list string)) (D : gmap string string) (k : string)
  : option (list string) :=
  if decide (k ∈ override_keys O) then Some (override_values k O)
  else (λ d, [d]) <$> D !! k.

(** A row as the merger reads it: its key and the concatenation of its
    fragments; a row without elements has no reading. *)
Definition row_reading (row : list string) : option (string * string) :=
  match row with
  | [] => None
  | key :: rest => Some (key, strings_Join rest "")
  end.

(** The group that a default makes when no row overrides it. *)
Definition default_pair (entry : string * string) : Emitted :=
  Pair entry.1 entry.2.

(** ** The collaborators *)

Inductive UiEvent :=
| UiSay (message : string)
| UiMessage (message : string)
| UiError (message : string).

Global Instance UiEvent_eq_dec : EqDecision UiEvent.
Proof. solve_decision. Defined.

Inductive DriverCall :=
| CallQemu (qemuArgs : list string)
| CallStop.

(** What the step has asked of the UI, of the driver and of the standard
    logger so far, oldest first. *)
Record World := {
  ui_out : list UiEvent;
  driver_calls : list DriverCall;
  log_out : list string
}.

(** How the driver answers: [None] is a nil error. *)
Record Driver := {
  Qemu : list string → option error;
  Stop : option error
}.

(** A computation either returns or panics; the world carries on. *)
Inductive Res (A : Type) :=
| Done (a : A) (w : World)
| Panicked (w : World).
Arguments Done {A} a w.
Arguments Panicked {A} w.

Definition M (A : Type) : Type := World → Res A.

Definition ret {A} (a : A) : M A := λ w, Done a w.
Definition panic {A} : M A := λ w, Panicked w.
Definition bind {A B} (c : M A) (k : A → M B) : M B :=
  λ w, match c w with
       | Done a w' => k a w'
       | Panicked w' => Panicked w'
       end.

Notation "'do' x <- c ; k" := (bind c (λ x, k))
  (at level 10, x name, c at level 100, k at level 200).
Notation "c ;; k" := (bind c (λ _, k))
  (at level 100, k at level 200, right associativity).

Definition ui_Say (message : string) : M unit :=
  λ w, Done tt {| ui_out := ui_out w ++ [UiSay message];
                  driver_calls := driver_calls w; log_out := log_out w |}.
Definition ui_Message (message : string) : M unit :=
  λ w, Done tt {| ui_out := ui_out w ++ [UiMessage message];
                  driver_calls := driver_calls w; log_out := log_out w |}.
Definition ui_Error (message : string) : M unit :=
  λ w, Done tt {| ui_out := ui_out w ++ [UiError message];
                  driver_calls := driver_calls w; log_out := log_out w |}.
Definition log_Println (line : string) : M unit :=
  λ w, Done tt {| ui_out := ui_out w; driver_calls := driver_calls w;
                  log_out := log_out w ++ [line] |}.
Definition driver_Qemu (d : Driver) (qemuArgs : list string) : M (option error) :=
  λ w, Done (Qemu d qemuArgs)
            {| ui_out := ui_out w; driver_calls := driver_calls w ++ [CallQemu qemuArgs];
               log_out := log_out w |}.
Definition driver_Stop (d : Driver) : M (option error) :=
  λ w, Done (Stop d)
            {| ui_out := ui_out w; driver_calls := driver_calls w ++ [CallStop];
               log_out := log_out w |}.

(** The world a computation ends in, whether it returns or panics. *)
Definition final {A} (r : Res A) : World :=
  match r with
  | Done _ w => w
  | Panicked w => w
  end.

(** A computation that leaves the driver alone and only adds to what the
    UI and the logger have been told. *)
Definition talks_only {A} (c : M A) : Prop :=
  ∀ w, driver_calls (final (c w)) = driver_calls w ∧
       ui_out w `prefix_of` ui_out (final (c w)) ∧
       log_out w `prefix_of` log_out (final (c w)).

Definition newline : string := String (Ascii.ascii_of_nat 10) "".

(** The two warnings of getCommandArgs (lines 74-76 and 97-98) and its
    announcement (line 110). *)
Definition headless_warning : string :=
  "WARNING: The VM will be started in headless mode, as configured." +:+ newline +:+
  "In headless mode, errors during the boot sequence or OS setup" +:+ newline +:+
  "won't be easily visible. Use at your own discretion.".

Definition no_accel_warning : string :=
  "WARNING: The VM will be started with no hardware acceleration." +:+ newline +:+
  "The installation may take considerably longer to finish." +:+ newline.

Definition overriding_message : string :=
  "Overriding defaults Qemu arguments with QemuArgs...".

Inductive StepAction := ActionContinue | ActionHalt.

(** ** The step *)

Section StepRun.

(** The width of [uint] on the platform. *)
Variable arch : WordSize.

(** [interpolate.Context] belongs to another package: all of it but its
    [Data] field is kept abstract, and so is [interpolate.Render]. *)
Variable ContextBase : Type.

Record qemuArgsTemplateData := {
  HTTPIP : string;
  HTTPPort : Z;
  HTTPDir : string;
  OutputDir : string;
  Name : string
}.

Record Context := {
  ctx_base : ContextBase;
  Data : option qemuArgsTemplateData
}.

Variable Render : string → Context → string + error.

(** [filepath.Join] of two elements and [strings.ToLower], from Go's
    standard library. *)
Variable filepath_Join : string → string → string.
Variable strings_ToLower : string → string.

(** The fields of [Config] that this file reads; the struct itself is
    declared in builder.go.  A nil slice is [None]. *)
Record Config := {
  VMName : string;
  Config_OutputDir : string;
  Format : string;
  Headless : bool;
  MachineType : string;
  NetDevice : string;
  DiskInterface : string;
  DiskCache : string;
  DiskDiscard : string;
  DiskImage : bool;
  Accelerator : string;
  QemuArgs : option (list (list string));
  Config_HTTPDir : string;
  ctx : ContextBase
}.

(** What a [multistep.StateBag] holds under a key: an [interface{}]. *)
Inductive Value :=
| VConfig (c : Config)
| VString (s : string)
| VUint (n : Z)
| VDriver (d : Driver)
| VUi.

(** [state.Get(k).(T)]: a missing key gives nil, and the assertion of a
    nil or of a value of another type panics. *)
Definition as_Config (v : option Value) : M Config :=
  match v with Some (VConfig c) => ret c | _ => panic end.
Definition as_string (v : option Value) : M string :=
  match v with Some (VString s) => ret s | _ => panic end.
Definition as_uint (v : option Value) : M Z :=
  match v with Some (VUint n) => ret n | _ => panic end.
Definition as_Driver (v : option Value) : M Driver :=
  match v with Some (VDriver d) => ret d | _ => panic end.
Definition as_Ui (v : option Value) : M unit :=
  match v with Some VUi => ret tt | _ => panic end.

(** *** processArgs (lines 165-185) *)

(** The inner loop of lines 176-181: the fragments of one row, left to
    right, up to the first that fails to render. *)
Fixpoint renderRow (rowArgs : list string) (ctx : Context) : list string + error :=
  match rowArgs with
  | [] => inl []
  | parm :: rest =>
      match Render parm ctx with
      | inr err => inr err
      | inl s =>
          match renderRow rest ctx with
          | inl parms => inl (s :: parms)
          | inr err => inr err
          end
      end
  end.

(** The outer loop of lines 173-182. *)
Fixpoint renderRows (args : list (list string)) (ctx : Context)
  : list (list string) + error :=
  match args with
  | [] => inl []
  | rowArgs :: rest =>
      match renderRow rowArgs ctx with
      | inr err => inr err
      | inl parms =>
          match renderRows rest ctx with
          | inl newArgs => inl (parms :: newArgs)
          | inr err => inr err
          end
      end
  end.

(** The two results of processArgs: the slice ([None] is nil) and the
    error ([None] is nil). *)
Definition processArgs (args : option (list (list string))) (ctx : Context)
  : option (list (list string)) * option error :=
  match args with
  | None => (Some [], None)
  | Some rows =>
      match renderRows rows ctx with
      | inl newArgs => (Some newArgs, None)
      | inr err => (None, Some err)
      end
  end.

(** [err] is the error of the first fragment of [fragments] that fails to
    render: every fragment before it renders. *)
Definition first_failure (ctx : Context) (fragments : list string) (err : error) : Prop :=
  ∃ before parm after,
    fragments = before ++ parm :: after ∧
    Forall (λ p, ∃ s, Render p ctx = inl s) before ∧
    Render parm ctx = inr err.

(** *** getCommandArgs (lines 59-163) *)

(** Lines 66-106: the defaults.  [state.GetOk] of line 102 reports a
    missing key instead of panicking; the assertion that follows panics
    on a value that is not a string. *)
Definition buildDefaultArgs (bootDrive : string) (state : gmap string Value)
    (config : Config) (isoPath : string) (vncPort sshHostPort : Z)
  : M (gmap string string) :=
  let vnc := "0.0.0.0:" +:+ fmt_uint (uint_sub arch vncPort 5900) in
  let vmName := VMName config in
  let imgPath := filepath_Join (Config_OutputDir config)
                   (vmName +:+ "." +:+ strings_ToLower (Format config)) in
  let defaultArgs : gmap string string := ∅ in
  do defaultArgs <-
    (if Headless config
     then ui_Message headless_warning;; ret defaultArgs
     else ret (<["-display" := "sdl"]> defaultArgs));
  let defaultArgs := <["-name" := vmName]> defaultArgs in
  let defaultArgs := <["-machine" := "type=" +:+ MachineType config]> defaultArgs in
  let defaultArgs :=
    <["-netdev" := "user,id=user.0,hostfwd=tcp::" +:+ fmt_uint sshHostPort +:+ "-:22"]>
      defaultArgs in
  let defaultArgs := <["-device" := NetDevice config +:+ ",netdev=user.0"]> defaultArgs in
  let defaultArgs :=
    <["-drive" := "file=" +:+ imgPath +:+ ",if=" +:+ DiskInterface config +:+
                  ",cache=" +:+ DiskCache config +:+
                  ",discard=" +:+ DiskDiscard config]> defaultArgs in
  let defaultArgs :=
    if DiskImage config then defaultArgs else <["-cdrom" := isoPath]> defaultArgs in
  let defaultArgs := <["-boot" := bootDrive]> defaultArgs in
  let defaultArgs := <["-m" := "512M"]> defaultArgs in
  let defaultArgs := <["-vnc" := vnc]> defaultArgs in
  do defaultArgs <-
    (if decide (Accelerator config ≠ "none")
     then ret (<["-machine" := default "" (defaultArgs !! "-machine") +:+
                               ",accel=" +:+ Accelerator config]> defaultArgs)
     else ui_Message no_accel_warning;; ret defaultArgs);
  match state !! "floppy_path" with
  | Some floppyPathRaw =>
      do floppyPath <- as_string (Some floppyPathRaw);
      ret (<["-fda" := floppyPath]> defaultArgs)
  | None =>
      log_Println "Qemu Builder has no floppy files, not attaching a floppy.";;
      ret defaultArgs
  end.

(** [len] of a slice and its elements: a nil slice has none. *)
Definition elems {A} (s : option (list A)) : list A := default [] s.

(** The rendering context of lines 113-120. *)
Definition qemuArgs_ctx (config : Config) (httpPort : Z) : Context :=
  {| ctx_base := ctx config;
     Data := Some {| HTTPIP := "10.0.2.2"; HTTPPort := httpPort;
                     HTTPDir := Config_HTTPDir config;
                     OutputDir := Config_OutputDir config;
                     Name := VMName config |} |}.

(** Lines 108-139: [inArgs] after the override rows.  [inr err] is the
    early [return nil, err] of line 123; a row without elements panics
    at line 130. *)
Definition overrideQemuArgs (state : gmap string Value) (config : Config)
  : M (gmap string (list string) + error) :=
  let inArgs : gmap string (list string) := ∅ in
  if decide (0 < length (elems (QemuArgs config)))%nat then
    ui_Say overriding_message;;
    do httpPort <- as_uint (state !! "http_port");
    let ctx := qemuArgs_ctx config httpPort in
    match processArgs (QemuArgs config) ctx with
    | (_, Some err) => ret (inr err)
    | (newQemuArgs, None) =>
        match overrideArgs inArgs (elems newQemuArgs) with
        | Some inArgs => ret (inl inArgs)
        | None => panic
        end
    end
  else ret (inl inArgs).

(** The whole function.  Its two results are the slice of tokens ([None]
    is nil) and the error. *)
Definition getCommandArgs (ro : RangeOrder) (bootDrive : string)
    (state : gmap string Value) : M (option (list string) * option error) :=
  do config <- as_Config (state !! "config");
  do isoPath <- as_string (state !! "iso_path");
  do vncPort <- as_uint (state !! "vnc_port");
  do sshHostPort <- as_uint (state !! "sshHostPort");
  do _ <- as_Ui (state !! "ui");
  do defaultArgs <- buildDefaultArgs bootDrive state config isoPath vncPort sshHostPort;
  do overridden <- overrideQemuArgs state config;
  match overridden with
  | inr err => ret (None, Some err)
  | inl inArgs =>
      let inArgs := backfill ro defaultArgs inArgs in
      ret (Some (flatten ro inArgs), None)
  end.

(** *** The state bag at launch *)

(** The state as the earlier steps of the builder leave it: the entries
    that getCommandArgs asserts, each of its type. *)
Definition launch_state (state : gmap string Value) (config : Config) (isoPath : string)
    (vncPort sshHostPort httpPort : Z) : Prop :=
  state !! "config" = Some (VConfig config) ∧
  state !! "iso_path" = Some (VString isoPath) ∧
  state !! "vnc_port" = Some (VUint vncPort) ∧
  state !! "sshHostPort" = Some (VUint sshHostPort) ∧
  state !! "http_port" = Some (VUint httpPort) ∧
  state !! "ui" = Some VUi.

(** The floppy path is absent or a string. *)
Definition floppy_ok (state : gmap string Value) : Prop :=
  state !! "floppy_path" = None ∨ ∃ path, state !! "floppy_path" = Some (VString path).

(** What getCommandArgs tells the UI when it goes through: the warnings
    of the defaults, then the announcement of the overrides when there are
    rows. *)
Definition launch_said (config : Config) : list UiEvent :=
  (if Headless config then [UiMessage headless_warning] else []) ++
  (if decide (Accelerator config ≠ "none") then [] else [UiMessage no_accel_warning]) ++
  (if decide (0 < length (elems (QemuArgs config)))%nat
   then [UiSay overriding_message] else []).

(** The keys of the defaults: eight that are always there and three that
    depend on the configuration and on the state. *)
Definition default_keys (state : gmap string Value) (config : Config) : gset string :=
  {[ "-name"; "-machine"; "-netdev"; "-device"; "-drive"; "-boot"; "-m"; "-vnc" ]} ∪
  (if Headless config then ∅ else {[ "-display" ]}) ∪
  (if DiskImage config then ∅ else {[ "-cdrom" ]}) ∪
  (match state !! "floppy_path" with Some _ => {[ "-fda" ]} | None => ∅ end).

(** *** stepRun (lines 15-57) *)

Record stepRun := { BootDrive : string; Message : string }.

Definition Run (ro : RangeOrder) (s : stepRun) (state : gmap string Value)
  : M StepAction :=
  do driver <- as_Driver (state !! "driver");
  do _ <- as_Ui (state !! "ui");
  ui_Say (Message s);;
  do result <- getCommandArgs ro (BootDrive s) state;
  let '(command, err) := result in
  match err with
  | Some err =>
      ui_Error ("Error processing QemuArggs: " +:+ err);; ret ActionHalt
  | None =>
      do err <- driver_Qemu driver (elems command);
      match err with
      | Some err => ui_Error ("Error launching VM: " +:+ err);; ret ActionHalt
      | None => ret ActionContinue
      end
  end.

Definition Cleanup (s : stepRun) (state : gmap string Value) : M unit :=
  do driver <- as_Driver (state !! "driver");
  do _ <- as_Ui (state !! "ui");
  do err <- driver_Stop driver;
  match err with
  | Some err => ui_Error ("Error shutting down VM: " +:+ err)
  | None => ret tt
  end.

End StepRun.

Arguments ctx_base {ContextBase} c.
Arguments Data {ContextBase} c.
Arguments VMName {ContextBase} c.
Arguments Config_OutputDir {ContextBase} c.
Arguments Format {ContextBase} c.
Arguments Headless {ContextBase} c.
Arguments MachineType {ContextBase} c.
Arguments NetDevice {ContextBase} c.
Arguments DiskInterface {ContextBase} c.
Arguments DiskCache {ContextBase} c.
Arguments DiskDiscard {ContextBase} c.
Arguments DiskImage {ContextBase} c.
Arguments Accelerator {ContextBase} c.
Arguments QemuArgs {ContextBase} c.
Arguments Config_HTTPDir {ContextBase} c.
Arguments ctx {ContextBase} c.
Arguments VConfig {ContextBase} c.
Arguments VString {ContextBase} s.
Arguments VUint {ContextBase} n.
Arguments VDriver {ContextBase} d.
Arguments VUi {ContextBase}.
Arguments as_Config {ContextBase} v.
Arguments as_string {ContextBase} v.
Arguments as_uint {ContextBase} v.
Arguments as_Driver {ContextBase} v.
Arguments as_Ui {ContextBase} v.
Arguments renderRow {ContextBase} Render rowArgs ctx.
Arguments renderRows {ContextBase} Render args ctx.
Arguments processArgs {ContextBase} Render args ctx.
Arguments buildDefaultArgs arch {ContextBase} filepath_Join strings_ToLower
  bootDrive state config isoPath vncPort sshHostPort.
Arguments overrideQemuArgs {ContextBase} Render state config.
Arguments getCommandArgs arch {ContextBase} Render filepath_Join strings_ToLower
  ro bootDrive state.
Arguments Run arch {ContextBase} Render filepath_Join strings_ToLower ro s state.
Arguments Cleanup {ContextBase} s state.
Arguments first_failure {ContextBase} Render ctx fragments err.
Arguments qemuArgs_ctx {ContextBase} config httpPort.
Arguments launch_state {ContextBase} state config isoPath vncPort sshHostPort httpPort.
Arguments floppy_ok {ContextBase} state.
Arguments launch_said {ContextBase} config.
Arguments default_keys {ContextBase} state config.

(** * Example inputs *)

(** Rendered rows with a repeated key, a key without a value and a value
    in two fragments; and defaults that overlap them. *)
Definition example_rows : list (list string) :=
  [["-device"; "virtio-net"]; ["-device"; "e1000"]; ["-boot"]; ["-m"; "10"; "24M"]].

Definition example_defaults : gmap string string :=
  <["-m" := "512M"]> (<["-boot" := "dc"]> (<["-name" := "vm"]> ∅)).

(** A renderer that knows no placeholder: a fragment that opens with two
    braces fails, any other is left as it is. *)
Definition example_Render (parm : string) (c : Context unit) : string + error :=
  if String.prefix "{{" parm then inr ("cannot render " +:+ parm) else inl parm.

Definition example_Join (dir file : string) : string := dir +:+ "/" +:+ file.

Definition example_config : Config unit :=
  {| VMName := "packer-vm"; Config_OutputDir := "output"; Format := "qcow2";
     Headless := true; MachineType := "pc"; NetDevice := "virtio-net";
     DiskInterface := "virtio"; DiskCache := "writeback"; DiskDiscard := "ignore";
     DiskImage := false; Accelerator := "kvm";
     QemuArgs := Some [["-m"; "1024M"]; ["-serial"; "file:"; "{{ .Undefined }}"]];
     Config_HTTPDir := "http"; ctx := tt |}.

Definition example_driver : Driver :=
  {| Qemu := λ _, None; Stop := Some "process already gone" |}.

Definition example_state : gmap string (Value unit) :=
  <["config" := VConfig example_config]>
  (<["iso_path" := VString "install.iso"]>
  (<["vnc_port" := VUint 5947]>
  (<["sshHostPort" := VUint 2222]>
  (<["http_port" := VUint 8080]>
  (<["driver" := VDriver example_driver]>
  (<["ui" := VUi]> ∅)))))).

(** The same state after a VNC port below 5900 was discovered. *)
Definition low_port_state : gmap string (Value unit) :=
  <["vnc_port" := VUint 5000]> example_state.

Definition empty_world : World :=
  {| ui_out := []; driver_calls := []; log_out := [] |}.

(** A configuration whose rows all render, with a graphical display and
    without acceleration; the same with a row without elements; and one
    without rows. *)
Definition plain_config : Config unit :=
  {| VMName := "packer-vm"; Config_OutputDir := "output"; Format := "qcow2";
     Headless := false; MachineType := "pc"; NetDevice := "virtio-net";
     DiskInterface := "virtio"; DiskCache := "writeback"; DiskDiscard := "ignore";
     DiskImage := true; Accelerator := "none";
     QemuArgs := Some [["-m"; "1024M"]; ["-device"; "virtio-net"]];
     Config_HTTPDir := "http"; ctx := tt |}.

Definition empty_row_config : Config unit :=
  {| VMName := "packer-vm"; Config_OutputDir := "output"; Format := "qcow2";
     Headless := false; MachineType := "pc"; NetDevice := "virtio-net";
     DiskInterface := "virtio"; DiskCache := "writeback"; DiskDiscard := "ignore";
     DiskImage := true; Accelerator := "none";
     QemuArgs := Some [["-m"; "1024M"]; []];
     Config_HTTPDir := "http"; ctx := tt |}.

Definition no_rows_config : Config unit :=
  {| VMName := "packer-vm"; Config_OutputDir := "output"; Format := "qcow2";
     Headless := false; MachineType := "pc"; NetDevice := "virtio-net";
     DiskInterface := "virtio"; DiskCache := "writeback"; DiskDiscard := "ignore";
     DiskImage := true; Accelerator := "none";
     QemuArgs := None;
     Config_HTTPDir := "http"; ctx := tt |}.

(** States of a launch with these configurations and a floppy; the last
    one has no HTTP port and no driver. *)
Definition plain_state : gmap string (Value unit) :=
  <["config" := VConfig plain_config]>
  (<["floppy_path" := VString "floppy.img"]> example_state).

Definition empty_row_state : gmap string (Value unit) :=
  <["config" := VConfig empty_row_config]> example_state.

Definition no_rows_state : gmap string (Value unit) :=
  <["config" := VConfig no_rows_config]>
  (<["iso_path" := VString "install.iso"]>
  (<["vnc_port" := VUint 5947]>
  (<["sshHostPort" := VUint 2222]>
  (<["ui" := VUi]> ∅)))).

(** A configuration whose rows are [example_rows], and its state. *)
Definition rows_config : Config unit :=
  {| VMName := "packer-vm"; Config_OutputDir := "output"; Format := "qcow2";
     Headless := false; MachineType := "pc"; NetDevice := "virtio-net";
     DiskInterface := "virtio"; DiskCache := "writeback"; DiskDiscard := "ignore";
     DiskImage := true; Accelerator := "none";
     QemuArgs := Some example_rows;
     Config_HTTPDir := "http"; ctx := tt |}.

Definition rows_state : gmap string (Value unit) :=
  <["config" := VConfig rows_config]> example_state.

Definition example_step : stepRun :=
  {| BootDrive := "c"; Message := "Starting the virtual machine..." |}.

(** * Properties of the argument merger *)

Section Merger.

Implicit Types (O : list (list string)) (D : gmap string string).
Implicit Types (inArgs m : gmap string (list string)) (k key : string).

(** ** The override rows *)

Lemma length_pos_nonempty (s : string) : (0 < String.length s)%nat ↔ s ≠ "".
Proof. destruct s; simpl; split; (lia || congruence || done). Qed.

Lemma overrideRow_lookup inArgs key rest k :
  ∃ m, overrideRow inArgs (key :: rest) = Some m ∧
    m !! k =
      if decide (key = k)
      then Some (default [] (inArgs !! k) ++
                 if decide (strings_Join rest "" ≠ "") then [strings_Join rest ""] else [])
      else inArgs !! k.
Proof.
  unfold overrideRow. eexists; split; [reflexivity|].
  set (val := strings_Join rest "").
  assert (Hreg : ∀ k', match inArgs !! key with
                       | Some _ => inArgs
                       | None => <[key := []]> inArgs
                       end !! k' =
                       if decide (key = k') then Some (default [] (inArgs !! k'))
                       else inArgs !! k').
  { intros k'. destruct (decide (key = k')) as [<-|Hne].
    - destruct (inArgs !! key) eqn:Hk; [by rewrite Hk | by rewrite lookup_insert_eq].
    - destruct (inArgs !! key); [done | by rewrite lookup_insert_ne]. }
  destruct (decide (0 < String.length val)%nat) as [Hpos|Hpos];
    rewrite length_pos_nonempty in Hpos.
  - rewrite (decide_True (P := val ≠ "")) by done.
    destruct (decide (key = k)) as [<-|Hne].
    + rewrite lookup_insert_eq, Hreg, decide_True by done. done.
    + rewrite lookup_insert_ne, Hreg, decide_False by done. done.
  - rewrite (decide_False (P := val ≠ "")) by done.
    rewrite Hreg, app_nil_r. done.
Qed.

Lemma override_keys_cons key rest O k :
  k ∈ override_keys ((key :: rest) :: O) ↔ key = k ∨ k ∈ override_keys O.
Proof. unfold override_keys. simpl. rewrite elem_of_cons. naive_solver. Qed.

Lemma override_values_cons key rest O k :
  override_values k ((key :: rest) :: O) =
    (if decide (key = k ∧ strings_Join rest "" ≠ "") then [strings_Join rest ""] else [])
    ++ override_values k O.
Proof. unfold override_values. simpl. by case_decide. Qed.

Lemma override_values_absent k O : k ∉ override_keys O → override_values k O = [].
Proof.
  induction O as [|[|key rest] O IH]; intros Hk; [done| |].
  - apply IH. intros Hin. apply Hk. unfold override_keys. by simpl.
  - rewrite override_keys_cons in Hk. rewrite override_values_cons.
    rewrite decide_False by naive_solver. apply IH. naive_solver.
Qed.

(** After the rows, a key that heads a row holds what it held before
    followed by the non-empty values of its rows; the others are as they
    were. *)
Lemma overrideArgs_lookup O : ∀ inArgs m k,
  overrideArgs inArgs O = Some m →
  m !! k = if decide (k ∈ override_keys O)
           then Some (default [] (inArgs !! k) ++ override_values k O)
           else inArgs !! k.
Proof.
  induction O as [|row O IH]; intros inArgs m k Hm; simpl in Hm.
  - injection Hm as <-. rewrite decide_False; [done|]. unfold override_keys. set_solver.
  - destruct row as [|key rest]; [done|].
    destruct (overrideRow_lookup inArgs key rest k) as (m1 & Hrow & Hk).
    rewrite Hrow in Hm. rewrite (IH _ _ k Hm), Hk, override_values_cons.
    destruct (decide (key = k)) as [->|Hne].
    + rewrite (decide_True (P := k ∈ override_keys ((k :: rest) :: O)))
        by (apply override_keys_cons; by left).
      simpl. destruct (decide (k ∈ override_keys O)) as [Hin|Hin].
      * f_equal. rewrite <- app_assoc. f_equal. f_equal.
        repeat case_decide; naive_solver.
      * rewrite (override_values_absent k O Hin), app_nil_r.
        f_equal. f_equal. repeat case_decide; naive_solver.
    + rewrite (decide_False (P := key = k ∧ _)) by naive_solver.
      rewrite app_nil_l.
      destruct (decide (k ∈ override_keys O)) as [Hin|Hin].
      * rewrite decide_True; [done|]. apply override_keys_cons; by right.
      * rewrite decide_False; [done|]. rewrite override_keys_cons. naive_solver.
Qed.

(** The rows are consumed without a panic exactly when none is empty. *)
Lemma overrideArgs_is_Some O : ∀ inArgs,
  is_Some (overrideArgs inArgs O) ↔ Forall (λ row, row ≠ []) O.
Proof.
  induction O as [|row O IH]; intros inArgs; simpl.
  - split; [constructor | by eexists].
  - destruct row as [|key rest]; simpl.
    + split; [by intros [? ?] | intros H; by inversion H].
    + rewrite IH. split; [by constructor | intros H; by inversion H].
Qed.

(** ** The defaults *)

Lemma backfill_keys_lookup D (ks : list string) : ∀ inArgs k,
  foldl (backfillKey D) inArgs ks !! k =
    match inArgs !! k with
    | Some b => Some b
    | None => if decide (k ∈ ks) then Some [default "" (D !! k)] else None
    end.
Proof.
  induction ks as [|key ks IH]; intros inArgs k; cbn [foldl].
  - destruct (inArgs !! k); [done|]. case_decide; [set_solver | done].
  - rewrite IH. unfold backfillKey.
    destruct (decide (key = k)) as [->|Hne].
    + destruct (inArgs !! k) eqn:Hk; [by rewrite Hk|].
      rewrite lookup_insert_eq. case_decide; [done | set_solver].
    + destruct (inArgs !! key) eqn:Hkey.
      * destruct (inArgs !! k); [done|]. repeat case_decide; set_solver.
      * rewrite lookup_insert_ne by done.
        destruct (inArgs !! k); [done|]. repeat case_decide; set_solver.
Qed.

Lemma elem_of_range_keys {A} ro (m : gmap string A) k :
  fair ro → k ∈ (range ro m).*1 ↔ is_Some (m !! k).
Proof.
  intros Hfair. unfold range. rewrite (Hfair A (map_to_list m)).
  rewrite list_elem_of_fmap. split.
  - intros ([k' v] & -> & Hin). apply elem_of_map_to_list in Hin. by eexists.
  - intros [v Hv]. exists (k, v). split; [done|]. by apply elem_of_map_to_list.
Qed.

(** The loop over the defaults does not depend on the order of the
    visit: a key already in [inArgs] keeps its bucket, and any other key
    of the defaults gets its default as its only value. *)
Lemma backfill_lookup ro D inArgs k :
  fair ro →
  backfill ro D inArgs !! k =
    match inArgs !! k with
    | Some b => Some b
    | None => (λ d, [d]) <$> D !! k
    end.
Proof.
  intros Hfair. unfold backfill. rewrite backfill_keys_lookup.
  destruct (inArgs !! k); [done|].
  destruct (D !! k) as [d|] eqn:HD; simpl.
  - rewrite decide_True; [done|]. apply elem_of_range_keys; [done|]. by eexists.
  - rewrite decide_False; [done|]. rewrite elem_of_range_keys by done.
    rewrite HD. by intros [? ?].
Qed.

(** The map that is flattened holds, for every key, the bucket that the
    specification gives it. *)
Lemma merged_lookup ro O D inArgs k :
  fair ro → overrideArgs ∅ O = Some inArgs →
  backfill ro D inArgs !! k = bucket O D k.
Proof.
  intros Hfair HO. rewrite backfill_lookup by done.
  rewrite (overrideArgs_lookup O _ _ k HO). unfold bucket.
  case_decide; [done|]. by rewrite lookup_empty.
Qed.

(** ** The flattening *)

Lemma flattenEntry_tokens (outArgs : list string) (entry : string * list string) :
  flattenEntry outArgs entry = outArgs ++ (emitEntry entry ≫= tokens).
Proof.
  destruct entry as [key values]. unfold flattenEntry, emitEntry.
  case_decide as Hlen; [|done].
  clear Hlen. revert outArgs.
  induction values as [|v values IH]; intros outArgs; simpl.
  - by rewrite app_nil_r.
  - rewrite IH, <- app_assoc. done.
Qed.

Lemma foldl_flattenEntry (entries : list (string * list string)) : ∀ outArgs,
  foldl flattenEntry outArgs entries = outArgs ++ ((entries ≫= emitEntry) ≫= tokens).
Proof.
  induction entries as [|entry entries IH]; intros outArgs; simpl.
  - by rewrite app_nil_r.
  - rewrite IH, flattenEntry_tokens, bind_app, <- app_assoc. done.
Qed.

(** The tokens are the groups, spelled out one after the other. *)
Lemma flatten_groups ro inArgs :
  flatten ro inArgs = flattenGroups ro inArgs ≫= tokens.
Proof. unfold flatten, flattenGroups. by rewrite foldl_flattenEntry. Qed.

Lemma mergeArgs_groups ro O D :
  mergeArgs ro O D = (λ groups, groups ≫= tokens) <$> mergeGroups ro O D.
Proof.
  unfold mergeArgs, mergeGroups.
  destruct (overrideArgs ∅ O); simpl; [by rewrite flatten_groups | done].
Qed.

Lemma key_of_emitEntry key values e : e ∈ emitEntry (key, values) → key_of e = key.
Proof.
  unfold emitEntry. case_decide.
  - intros (v & -> & _)%list_elem_of_fmap. done.
  - intros ->%list_elem_of_singleton. done.
Qed.

Lemma emitEntry_nonempty entry : emitEntry entry ≠ [].
Proof.
  destruct entry as [key [|v values]]; unfold emitEntry; simpl; done.
Qed.

Lemma filter_keeps_all {A} (P : A → Prop) `{∀ x, Decision (P x)} (l : list A) :
  Forall P l → filter P l = l.
Proof.
  induction 1 as [|x l Hx _ IH]; [done|]. by rewrite filter_cons_True, IH.
Qed.

Lemma filter_keeps_none {A} (P : A → Prop) `{∀ x, Decision (P x)} (l : list A) :
  Forall (λ x, ¬ P x) l → filter P l = [].
Proof.
  induction 1 as [|x l Hx _ IH]; [done|]. by rewrite filter_cons_False.
Qed.

Lemma groups_of_emitEntry k key values :
  groups_of k (emitEntry (key, values)) =
    if decide (key = k) then emitEntry (key, values) else [].
Proof.
  unfold groups_of. case_decide as Hk.
  - apply filter_keeps_all, Forall_forall. intros e He.
    by rewrite (key_of_emitEntry _ _ _ He).
  - apply filter_keeps_none, Forall_forall. intros e He.
    by rewrite (key_of_emitEntry _ _ _ He).
Qed.

Lemma groups_of_entries k (entries : list (string * list string)) :
  NoDup entries.*1 →
  groups_of k (entries ≫= emitEntry) =
    match list_to_map (M := gmap string (list string)) entries !! k with
    | Some values => emitEntry (k, values)
    | None => []
    end.
Proof.
  induction entries as [|[key values] entries IH]; intros Hnd; [done|].
  rewrite fmap_cons, NoDup_cons in Hnd. destruct Hnd as [Hkey Hnd].
  cbn [mbind list_bind list_to_map foldr].
  unfold groups_of in *. rewrite filter_app.
  fold (groups_of k (emitEntry (key, values))). rewrite groups_of_emitEntry.
  simpl. destruct (decide (key = k)) as [->|Hne].
  - rewrite lookup_insert_eq, (IH Hnd).
    rewrite (not_elem_of_list_to_map_1 (M := gmap string) _ _ Hkey).
    by rewrite app_nil_r.
  - rewrite lookup_insert_ne by done. by rewrite (IH Hnd).
Qed.

Lemma range_NoDup {A} ro (m : gmap string A) : fair ro → NoDup (range ro m).*1.
Proof.
  intros Hfair. unfold range. rewrite (Hfair A (map_to_list m)).
  apply NoDup_fst_map_to_list.
Qed.

Lemma list_to_map_range {A} ro (m : gmap string A) :
  fair ro → list_to_map (range ro m) = m.
Proof.
  intros Hfair. apply map_eq. intros k. apply option_eq. intros v.
  rewrite <- elem_of_list_to_map by (by apply range_NoDup).
  unfold range. rewrite (Hfair A (map_to_list m)). apply elem_of_map_to_list.
Qed.

(** The groups of a key in the output are those of its bucket: one pair
    per value, in the order of the bucket, or the key alone. *)
Lemma groups_of_flattenGroups ro inArgs k :
  fair ro →
  groups_of k (flattenGroups ro inArgs) =
    match inArgs !! k with
    | Some values => emitEntry (k, values)
    | None => []
    end.
Proof.
  intros Hfair. unfold flattenGroups.
  rewrite groups_of_entries by (by apply range_NoDup).
  by rewrite list_to_map_range.
Qed.

Lemma groups_of_cons k e (out : list Emitted) :
  groups_of k (e :: out) =
    if decide (key_of e = k) then e :: groups_of k out else groups_of k out.
Proof. unfold groups_of. by rewrite filter_cons. Qed.

Lemma values_of_cons k e (out : list Emitted) :
  values_of k (e :: out) =
    match e with
    | Pair key v => if decide (key = k) then v :: values_of k out else values_of k out
    | Bare _ => values_of k out
    end.
Proof. destruct e as [key|key v]; unfold values_of; simpl; [done|]. by case_decide. Qed.

Lemma values_of_app k (out1 out2 : list Emitted) :
  values_of k (out1 ++ out2) = values_of k out1 ++ values_of k out2.
Proof. unfold values_of. apply omap_app. Qed.

Lemma values_of_groups_of k (out : list Emitted) :
  values_of k (groups_of k out) = values_of k out.
Proof.
  induction out as [|e out IH]; [done|].
  rewrite groups_of_cons. case_decide as Hk; rewrite !values_of_cons, ?IH; [done|].
  destruct e as [key|key v]; [done|]. simpl in Hk. by rewrite decide_False.
Qed.

Lemma values_of_emitEntry k values : values_of k (emitEntry (k, values)) = values.
Proof.
  unfold emitEntry. case_decide as Hlen.
  - clear Hlen. induction values as [|v values IH]; [done|].
    rewrite fmap_cons, values_of_cons, decide_True, IH; done.
  - destruct values; [done | simpl in *; lia].
Qed.

(** The values paired with a key, in output order, are its bucket. *)
Lemma values_of_flattenGroups ro inArgs k :
  fair ro → values_of k (flattenGroups ro inArgs) = default [] (inArgs !! k).
Proof.
  intros Hfair. rewrite <- values_of_groups_of, groups_of_flattenGroups by done.
  destruct (inArgs !! k); [apply values_of_emitEntry | done].
Qed.


(** ** Reading the output back *)

Lemma elem_of_keys_groups_of k (out : list Emitted) :
  k ∈ key_of <$> out ↔ groups_of k out ≠ [].
Proof.
  unfold groups_of. rewrite list_elem_of_fmap. split.
  - intros (e & -> & He) Hnil.
    by apply (filter_nil_not_elem_of _ _ e Hnil).
  - intros Hne. destruct (filter (λ e, key_of e = k) out) as [|e l] eqn:Hf; [done|].
    assert (He : e ∈ filter (λ e, key_of e = k) out) by (rewrite Hf; left).
    apply list_elem_of_filter in He as [Hk He]. by exists e.
Qed.

Lemma elem_of_keys_flattenGroups ro inArgs k :
  fair ro → k ∈ key_of <$> flattenGroups ro inArgs ↔ is_Some (inArgs !! k).
Proof.
  intros Hfair. rewrite elem_of_keys_groups_of, groups_of_flattenGroups by done.
  destruct (inArgs !! k) as [values|].
  - split; [by eexists | intros _; apply emitEntry_nonempty].
  - split; [done | by intros [? ?]].
Qed.

Lemma recordGroup_lookup m e k :
  recordGroup m e !! k =
    if decide (key_of e = k) then Some (default [] (m !! k) ++ values_of k [e])
    else m !! k.
Proof.
  destruct e as [key|key v]; cbn [recordGroup key_of]; rewrite values_of_cons.
  - destruct (decide (key = k)) as [->|Hne].
    + by rewrite lookup_insert_eq, app_nil_r.
    + by rewrite lookup_insert_ne.
  - destruct (decide (key = k)) as [->|Hne].
    + by rewrite lookup_insert_eq.
    + by rewrite lookup_insert_ne.
Qed.

Lemma foldl_recordGroup_lookup (out : list Emitted) : ∀ m k,
  foldl recordGroup m out !! k =
    if decide (k ∈ key_of <$> out) then Some (default [] (m !! k) ++ values_of k out)
    else m !! k.
Proof.
  induction out as [|e out IH]; intros m k; cbn [foldl].
  - case_decide; [set_solver | done].
  - rewrite IH, recordGroup_lookup, fmap_cons.
    change (e :: out) with ([e] ++ out). rewrite values_of_app.
    destruct (decide (key_of e = k)) as [Hk|Hk].
    + rewrite (decide_True (P := k ∈ _ :: _)) by set_solver.
      case_decide; simpl.
      * by rewrite app_assoc.
      * assert (Hout : values_of k out = []).
        { rewrite <- values_of_groups_of.
          destruct (groups_of k out) eqn:Hg; [done|].
          exfalso. apply H. apply elem_of_keys_groups_of. by rewrite Hg. }
        by rewrite Hout, app_nil_r.
    + assert (He : values_of k [e] = []).
      { rewrite values_of_cons. destruct e; [done|]. simpl in Hk. by rewrite decide_False. }
      rewrite He, app_nil_l.
      repeat case_decide; set_solver.
Qed.

(** Read back as a map from key to ordered value list, the output is the
    map that was flattened, whatever the order of the visit. *)
Lemma buckets_of_flattenGroups ro inArgs :
  fair ro → buckets_of (flattenGroups ro inArgs) = inArgs.
Proof.
  intros Hfair. apply map_eq. intros k. unfold buckets_of.
  rewrite foldl_recordGroup_lookup, lookup_empty.
  case_decide as Hk; rewrite elem_of_keys_flattenGroups in Hk by done.
  - destruct Hk as [values Hk]. rewrite values_of_flattenGroups, Hk by done. done.
  - symmetry. by apply eq_None_not_Some.
Qed.

(** The keys of the flattened map are those of the rows and of the
    defaults. *)
Lemma bucket_is_Some O D k :
  is_Some (bucket O D k) ↔ k ∈ override_keys O ∨ is_Some (D !! k).
Proof.
  unfold bucket. case_decide as Hk.
  - split; [by left | by eexists].
  - rewrite fmap_is_Some. naive_solver.
Qed.

(** A row of a key whose value is not empty, and the keys of the rows. *)
Lemma elem_of_override_keys O k :
  k ∈ override_keys O ↔ ∃ rest, k :: rest ∈ O.
Proof.
  unfold override_keys. rewrite list_elem_of_omap. split.
  - intros ([|key rest] & Hin & Hhd); [done|]. simpl in Hhd.
    injection Hhd as ->. by exists rest.
  - intros [rest Hin]. by exists (k :: rest).
Qed.

Lemma elem_of_override_values O k v :
  v ∈ override_values k O ↔
  ∃ rest, k :: rest ∈ O ∧ strings_Join rest "" = v ∧ v ≠ "".
Proof.
  unfold override_values. rewrite list_elem_of_omap. split.
  - intros ([|key rest] & Hin & Hv); [done|].
    case_decide as Hk; [|done]. destruct Hk as [-> Hne].
    injection Hv as <-. by exists rest.
  - intros (rest & Hin & <- & Hne). exists (k :: rest). split; [done|].
    by rewrite decide_True.
Qed.



Lemma elem_of_values_of k v (out : list Emitted) :
  v ∈ values_of k out ↔ Pair k v ∈ out.
Proof.
  unfold values_of. rewrite list_elem_of_omap. split.
  - intros ([key|key v'] & Hin & Hv); [done|].
    case_decide as Hk; [|done]. injection Hv as ->. by subst.
  - intros Hin. exists (Pair k v). split; [done|]. by rewrite decide_True.
Qed.

Lemma elem_of_groups_of k e (out : list Emitted) :
  e ∈ groups_of k out ↔ key_of e = k ∧ e ∈ out.
Proof. unfold groups_of. apply (list_elem_of_filter (λ e', key_of e' = k)). Qed.

Lemma emitEntry_cases k values :
  emitEntry (k, values) = if decide (values = []) then [Bare k] else Pair k <$> values.
Proof. unfold emitEntry. destruct values; simpl; done. Qed.

(** ** The merger as a whole *)

(** When no row is empty the merger returns, and what it returns is the
    flattening of a map that holds the bucket of every key. *)
Lemma merge_spec ro O D :
  fair ro → Forall (λ row, row ≠ []) O →
  ∃ inArgs groups,
    groups = flattenGroups ro inArgs ∧
    mergeGroups ro O D = Some groups ∧
    mergeArgs ro O D = Some (groups ≫= tokens) ∧
    ∀ k, inArgs !! k = bucket O D k.
Proof.
  intros Hfair HO.
  destruct (proj2 (overrideArgs_is_Some O ∅) HO) as [inArgs0 HinArgs].
  exists (backfill ro D inArgs0), (flattenGroups ro (backfill ro D inArgs0)).
  split; [done|]. rewrite mergeArgs_groups. unfold mergeGroups. rewrite HinArgs.
  split; [done|]. split; [done|]. intros k. by apply merged_lookup.
Qed.

Lemma merge_groups_of ro O D groups k :
  fair ro → mergeGroups ro O D = Some groups →
  groups_of k groups =
    match bucket O D k with
    | Some values => if decide (values = []) then [Bare k] else Pair k <$> values
    | None => []
    end.
Proof.
  intros Hfair. unfold mergeGroups.
  destruct (overrideArgs ∅ O) as [inArgs|] eqn:HO; [|done].
  intros [= <-]. rewrite groups_of_flattenGroups, (merged_lookup ro O D inArgs k) by done.
  destruct (bucket O D k); [apply emitEntry_cases | done].
Qed.

Lemma merge_values_of ro O D groups k :
  fair ro → mergeGroups ro O D = Some groups →
  values_of k groups = default [] (bucket O D k).
Proof.
  intros Hfair. unfold mergeGroups.
  destruct (overrideArgs ∅ O) as [inArgs|] eqn:HO; [|done].
  intros [= <-]. by rewrite values_of_flattenGroups, (merged_lookup ro O D inArgs k).
Qed.

Lemma bucket_override O D k :
  k ∈ override_keys O → bucket O D k = Some (override_values k O).
Proof. intros Hk. unfold bucket. by rewrite decide_True. Qed.

Lemma bucket_default O D k :
  k ∉ override_keys O → bucket O D k = (λ d, [d]) <$> D !! k.
Proof. intros Hk. unfold bucket. by rewrite decide_False. Qed.


(** ** The guarantees of the merger *)

(** The merger on any rows [O] without an empty row and any defaults [D]:
    the keys of the groups are those of [O] and of [D]; the groups of a
    key are one pair per value of its bucket, in bucket order, or the key
    alone when the bucket is empty; and a key that heads a row of [O] is
    paired with exactly the non-empty values of its rows. *)
Lemma merge_one_group_per_bucket_value ro O D :
  fair ro → Forall (λ row, row ≠ []) O →
  ∃ groups,
    mergeGroups ro O D = Some groups ∧
    mergeArgs ro O D = Some (groups ≫= tokens) ∧
    (∀ k, k ∈ key_of <$> groups ↔ k ∈ override_keys O ∨ is_Some (D !! k)) ∧
    (∀ k values, bucket O D k = Some values →
       groups_of k groups =
         if decide (values = []) then [Bare k] else Pair k <$> values) ∧
    (∀ k, k ∈ override_keys O →
       values_of k groups = override_values k O ∧
       ∀ d, D !! k = Some d → Pair k d ∈ groups → d ∈ override_values k O).
Proof.
  intros Hfair HO.
  destruct (merge_spec ro O D Hfair HO) as (inArgs & groups & Hgroups & HG & HA & Hbucket).
  exists groups. split; [done|]. split; [done|]. split; [|split].
  - intros k. rewrite Hgroups, elem_of_keys_flattenGroups, Hbucket by done.
    apply bucket_is_Some.
  - intros k values Hk. by rewrite (merge_groups_of ro O D groups k Hfair HG), Hk.
  - intros k Hk.
    assert (Hvalues : values_of k groups = override_values k O).
    { by rewrite (merge_values_of ro O D groups k Hfair HG), bucket_override. }
    split; [done|]. intros d _ Hd. rewrite <- Hvalues. by apply elem_of_values_of.
Qed.

(** The merger, for a key that heads rows of [O]: it is paired with
    exactly the non-empty concatenated values of its rows, first row
    first, and is not emitted bare when there is at least one. *)
Lemma override_values_in_row_order ro O D k :
  fair ro → Forall (λ row, row ≠ []) O → k ∈ override_keys O →
  ∃ groups,
    mergeGroups ro O D = Some groups ∧
    mergeArgs ro O D = Some (groups ≫= tokens) ∧
    values_of k groups = override_values k O ∧
    length (values_of k groups) = length (override_values k O) ∧
    (override_values k O ≠ [] → groups_of k groups = Pair k <$> override_values k O).
Proof.
  intros Hfair HO Hk.
  destruct (merge_spec ro O D Hfair HO) as (inArgs & groups & Hgroups & HG & HA & Hbucket).
  exists groups. split; [done|]. split; [done|].
  assert (Hvalues : values_of k groups = override_values k O).
  { by rewrite (merge_values_of ro O D groups k Hfair HG), bucket_override. }
  split; [done|]. split.
  - by rewrite Hvalues.
  - intros Hne. rewrite (merge_groups_of ro O D groups k Hfair HG), bucket_override by done.
    by rewrite decide_False.
Qed.


(** The merger, for a key of the defaults that heads no row: it is
    emitted as the key immediately followed by its default, also when the
    default is the empty string; a key of the rows is never paired with
    the empty string. *)
Lemma default_emitted_with_its_value ro O D k d :
  fair ro → Forall (λ row, row ≠ []) O → k ∉ override_keys O → D !! k = Some d →
  ∃ groups,
    mergeGroups ro O D = Some groups ∧
    mergeArgs ro O D = Some (groups ≫= tokens) ∧
    groups_of k groups = [Pair k d] ∧
    (Bare k ∉ groups) ∧
    (∃ before after, (groups ≫= tokens) = before ++ k :: d :: after) ∧
    (∀ k', k' ∈ override_keys O → Pair k' "" ∉ groups).
Proof.
  intros Hfair HO Hk Hd.
  destruct (merge_spec ro O D Hfair HO) as (inArgs & groups & Hgroups & HG & HA & Hbucket).
  assert (Hgr : groups_of k groups = [Pair k d]).
  { by rewrite (merge_groups_of ro O D groups k Hfair HG), bucket_default, Hd. }
  exists groups. split; [done|]. split; [done|]. split; [done|]. split; [|split].
  - intros Hbare.
    assert (Hin : Bare k ∈ groups_of k groups) by (by apply elem_of_groups_of).
    rewrite Hgr in Hin. by apply list_elem_of_singleton in Hin.
  - assert (Hin : Pair k d ∈ groups).
    { apply (elem_of_groups_of k). rewrite Hgr. left. }
    apply list_elem_of_split in Hin as (g1 & g2 & ->).
    exists (g1 ≫= tokens), (g2 ≫= tokens). by rewrite bind_app.
  - intros k' Hk' Hpair. apply elem_of_values_of in Hpair.
    rewrite (merge_values_of ro O D groups k' Hfair HG), bucket_override in Hpair by done.
    apply elem_of_override_values in Hpair as (rest & _ & _ & Hne). done.
Qed.


(** ** More on the merger: what the rows are read for *)

Lemma overrideRow_reading inArgs (row1 row2 : list string) :
  row_reading row1 = row_reading row2 → overrideRow inArgs row1 = overrideRow inArgs row2.
Proof.
  destruct row1 as [|key1 rest1], row2 as [|key2 rest2]; simpl; try done.
  intros [= -> Hval]. by rewrite Hval.
Qed.

Lemma overrideArgs_app (O1 O2 : list (list string)) : ∀ inArgs,
  overrideArgs inArgs (O1 ++ O2) =
    match overrideArgs inArgs O1 with
    | Some inArgs' => overrideArgs inArgs' O2
    | None => None
    end.
Proof.
  induction O1 as [|row O1 IH]; intros inArgs; simpl; [done|].
  destruct (overrideRow inArgs row); [apply IH | done].
Qed.

Lemma overrideArgs_reading (O1 O2 : list (list string)) : ∀ inArgs,
  row_reading <$> O1 = row_reading <$> O2 →
  overrideArgs inArgs O1 = overrideArgs inArgs O2.
Proof.
  revert O2. induction O1 as [|row1 O1 IH]; intros [|row2 O2] inArgs Heq; try done.
  rewrite !fmap_cons in Heq. injection Heq as Hrow HO. simpl.
  rewrite (overrideRow_reading inArgs row1 row2 Hrow).
  destruct (overrideRow inArgs row2); [by apply IH | done].
Qed.

(** X1.  The merger reads a row only for its key and for the
    concatenation of its fragments: two lists of rows that agree on these,
    row by row, give the same result, tokens or panic. *)
Theorem merge_reads_key_and_joined_value ro O1 O2 D :
  row_reading <$> O1 = row_reading <$> O2 →
  mergeArgs ro O1 D = mergeArgs ro O2 D.
Proof.
  intros Heq. unfold mergeArgs. by rewrite (overrideArgs_reading O1 O2 ∅ Heq).
Qed.

Lemma overrideRow_commute inArgs (row1 row2 : list string) :
  head row1 ≠ head row2 →
  match overrideRow inArgs row1 with
  | Some inArgs' => overrideRow inArgs' row2
  | None => None
  end =
  match overrideRow inArgs row2 with
  | Some inArgs' => overrideRow inArgs' row1
  | None => None
  end.
Proof.
  destruct row1 as [|key1 rest1], row2 as [|key2 rest2]; try done.
  intros Hne. assert (Hkeys : key1 ≠ key2) by (intros ->; by apply Hne).
  destruct (overrideRow_lookup inArgs key1 rest1 key1) as (m1 & Hm1 & _).
  destruct (overrideRow_lookup inArgs key2 rest2 key2) as (m2 & Hm2 & _).
  rewrite Hm1, Hm2.
  destruct (overrideRow_lookup m1 key2 rest2 key2) as (m12 & Hm12 & _).
  destruct (overrideRow_lookup m2 key1 rest1 key1) as (m21 & Hm21 & _).
  rewrite Hm12, Hm21. f_equal. apply map_eq. intros k.
  destruct (overrideRow_lookup inArgs key1 rest1 k) as (? & Ha & Hk1).
  destruct (overrideRow_lookup inArgs key2 rest2 k) as (? & Hb & Hk2).
  destruct (overrideRow_lookup m1 key2 rest2 k) as (? & Hc & Hk12).
  destruct (overrideRow_lookup m2 key1 rest1 k) as (? & Hd & Hk21).
  simplify_eq. rewrite Hk12, Hk21, Hk1, Hk2.
  destruct (decide (key1 = k)), (decide (key2 = k)); congruence.
Qed.

(** X2.  Two neighbouring rows with different keys can change places:
    the result is the same.  (Rows with the same key cannot: their order
    is the order of the values.) *)
Theorem merge_rows_of_distinct_keys_commute ro O1 O2 (row1 row2 : list string) D :
  head row1 ≠ head row2 →
  mergeArgs ro (O1 ++ row1 :: row2 :: O2) D = mergeArgs ro (O1 ++ row2 :: row1 :: O2) D.
Proof.
  intros Hne. unfold mergeArgs. rewrite !overrideArgs_app.
  destruct (overrideArgs ∅ O1) as [inArgs|]; [|done].
  cbn [overrideArgs]. pose proof (overrideRow_commute inArgs row1 row2 Hne) as Hswap.
  destruct (overrideRow inArgs row1) as [m1|], (overrideRow inArgs row2) as [m2|].
  - by rewrite Hswap.
  - by rewrite Hswap.
  - by rewrite <- Hswap.
  - done.
Qed.

Lemma mergeArgs_None_iff ro O D :
  mergeArgs ro O D = None ↔ [] ∈ O.
Proof.
  unfold mergeArgs. pose proof (overrideArgs_is_Some O ∅) as Hsome.
  rewrite Forall_forall in Hsome. split.
  - intros Hnone. destruct (decide ([] ∈ O)) as [|Hnot]; [done|].
    destruct (proj2 Hsome) as [inArgs HinArgs].
    + intros row Hrow ->. by apply Hnot.
    + by rewrite HinArgs in Hnone.
  - intros Hin. destruct (overrideArgs ∅ O) as [inArgs|] eqn:HO; [|done].
    exfalso. by apply (proj1 Hsome (mk_is_Some _ _ eq_refl) [] Hin).
Qed.

(** X3.  The merger panics exactly when a row has no element, whatever
    the defaults and the order of the visits. *)
Theorem merge_panics_iff_empty_row ro O D :
  mergeArgs ro O D = None ↔ [] ∈ O.
Proof. apply mergeArgs_None_iff. Qed.

(** ** More on the flattening: order *)

Lemma range_Permutation {A} ro1 ro2 (m : gmap string A) :
  fair ro1 → fair ro2 → range ro1 m ≡ₚ range ro2 m.
Proof. intros H1 H2. unfold range. by rewrite (H1 A), (H2 A). Qed.

(** X4.  Two runs of the merger that visit the maps in different orders
    return the same groups up to their order, hence the same tokens up to
    their order and as many of them. *)
Theorem merge_outputs_are_permutations ro1 ro2 O D groups1 :
  fair ro1 → fair ro2 → mergeGroups ro1 O D = Some groups1 →
  ∃ groups2,
    mergeGroups ro2 O D = Some groups2 ∧
    mergeArgs ro1 O D = Some (groups1 ≫= tokens) ∧
    mergeArgs ro2 O D = Some (groups2 ≫= tokens) ∧
    groups1 ≡ₚ groups2 ∧
    (groups1 ≫= tokens) ≡ₚ (groups2 ≫= tokens) ∧
    length (groups1 ≫= tokens) = length (groups2 ≫= tokens).
Proof.
  intros Hfair1 Hfair2. rewrite !mergeArgs_groups. unfold mergeGroups.
  destruct (overrideArgs ∅ O) as [inArgs|]; [|done]. intros [= <-].
  assert (Hmap : backfill ro2 D inArgs = backfill ro1 D inArgs).
  { apply map_eq. intros k. by rewrite !backfill_lookup. }
  rewrite Hmap. eexists. split; [done|]. split; [done|]. split; [done|].
  assert (Hperm : flattenGroups ro1 (backfill ro1 D inArgs) ≡ₚ
                  flattenGroups ro2 (backfill ro1 D inArgs)).
  { unfold flattenGroups. by rewrite (range_Permutation ro1 ro2). }
  split; [done|]. split; [by rewrite Hperm | by rewrite Hperm].
Qed.



Lemma bind_default_entries (entries : list (string * string)) :
  (prod_map id (λ d, [d]) <$> entries) ≫= emitEntry = default_pair <$> entries.
Proof.
  induction entries as [|[k d] entries IH]; [done|].
  rewrite !fmap_cons. cbn [mbind list_bind]. fold (mbind (M := list) emitEntry).
  by rewrite <- IH.
Qed.

(** Without override rows the output is the defaults and nothing else:
    up to order, one pair of key and value for each default. *)
Lemma mergeGroups_without_rows ro D :
  fair ro →
  ∃ groups,
    mergeGroups ro [] D = Some groups ∧
    mergeArgs ro [] D = Some (groups ≫= tokens) ∧
    groups ≡ₚ default_pair <$> map_to_list D ∧
    length (groups ≫= tokens) = (2 * size D)%nat.
Proof.
  intros Hfair. rewrite mergeArgs_groups. unfold mergeGroups. cbn [overrideArgs].
  eexists. split; [done|]. split; [done|].
  assert (Hmap : backfill ro D ∅ = (λ d, [d]) <$> D).
  { apply map_eq. intros k. by rewrite backfill_lookup, lookup_empty, lookup_fmap. }
  assert (Hperm : flattenGroups ro (backfill ro D ∅) ≡ₚ default_pair <$> map_to_list D).
  { unfold flattenGroups, range. rewrite (Hfair _ (map_to_list _)), Hmap.
    by rewrite map_to_list_fmap, bind_default_entries. }
  split; [done|]. rewrite Hperm, <- (length_map_to_list D). clear.
  induction (map_to_list D) as [|[k d] l IH]; [done|].
  rewrite fmap_cons. cbn [mbind list_bind default_pair tokens app length fst snd].
  fold (mbind (M := list) tokens). rewrite IH. simpl. lia.
Qed.



End Merger.

(** * Properties of the step *)

Section StepRunProperties.

Context (arch : WordSize) {ContextBase : Type}.
Context (Render : string → Context ContextBase → string + error).
Context (filepath_Join : string → string → string).
Context (strings_ToLower : string → string).

Implicit Types (state : gmap string (Value ContextBase)) (config : Config ContextBase).
Implicit Types (w : World) (ctx : Context ContextBase).

(** ** Rendering *)

Lemma renderRow_spec ctx (rowArgs : list string) :
  match renderRow Render rowArgs ctx with
  | inl parms => Forall2 (λ p s, Render p ctx = inl s) rowArgs parms
  | inr err => first_failure Render ctx rowArgs err
  end.
Proof.
  induction rowArgs as [|parm rest IH]; simpl; [constructor|].
  destruct (Render parm ctx) as [s|err] eqn:Hparm.
  - destruct (renderRow Render rest ctx) as [parms|err].
    + by constructor.
    + destruct IH as (before & p & after & -> & Hbefore & Hp).
      exists (parm :: before), p, after. split; [done|]. split; [|done].
      constructor; [by exists s | done].
  - by exists [], parm, rest.
Qed.

Lemma Forall2_rendered ctx (rowArgs parms : list string) :
  Forall2 (λ p s, Render p ctx = inl s) rowArgs parms →
  Forall (λ p, ∃ s, Render p ctx = inl s) rowArgs.
Proof. induction 1; constructor; [by eexists | done]. Qed.

Lemma renderRows_spec ctx (args : list (list string)) :
  match renderRows Render args ctx with
  | inl newArgs => Forall2 (Forall2 (λ p s, Render p ctx = inl s)) args newArgs
  | inr err => first_failure Render ctx (mjoin args) err
  end.
Proof.
  induction args as [|rowArgs rest IH]; simpl; [constructor|].
  pose proof (renderRow_spec ctx rowArgs) as Hrow.
  destruct (renderRow Render rowArgs ctx) as [parms|err].
  - destruct (renderRows Render rest ctx) as [newArgs|err].
    + by constructor.
    + destruct IH as (before & p & after & Hrest & Hbefore & Hp).
      exists (rowArgs ++ before), p, after. split; [by rewrite Hrest, app_assoc|].
      split; [|done]. apply Forall_app. split; [|done].
      by apply (Forall2_rendered ctx rowArgs parms).
  - destruct Hrow as (before & p & after & -> & Hbefore & Hp).
    exists before, p, (after ++ mjoin rest). split; [|done].
    by rewrite <- app_assoc.
Qed.

(** A fragment that fails makes the whole expansion fail. *)
Lemma renderRows_fails ctx (args : list (list string)) rowArgs parm err0 :
  rowArgs ∈ args → parm ∈ rowArgs → Render parm ctx = inr err0 →
  ∃ err, renderRows Render args ctx = inr err ∧ first_failure Render ctx (mjoin args) err.
Proof.
  intros Hrow Hparm Hfail. pose proof (renderRows_spec ctx args) as Hspec.
  destruct (renderRows Render args ctx) as [newArgs|err]; [|by exists err].
  exfalso.
  assert (Hall : Forall (λ p, ∃ s, Render p ctx = inl s) (mjoin args)).
  { clear -Hspec. induction Hspec as [|row parms rest newArgs Hr _ IH]; [constructor|].
    simpl. apply Forall_app. split; [by apply (Forall2_rendered ctx row parms) | done]. }
  rewrite Forall_forall in Hall. destruct (Hall parm) as [s Hs].
  - apply list_elem_of_join. by exists rowArgs.
  - congruence.
Qed.

(** ** The defaults *)

Lemma warnings_differ : headless_warning ≠ no_accel_warning.
Proof. intros H. vm_compute in H. discriminate H. Qed.

(** What lines 66-106 return and what they tell the UI. *)
Lemma buildDefaultArgs_spec bootDrive state config isoPath vncPort sshHostPort w :
  floppy_ok state →
  ∃ defaultArgs w',
    buildDefaultArgs arch filepath_Join strings_ToLower bootDrive state config
      isoPath vncPort sshHostPort w = Done defaultArgs w' ∧
    ui_out w' = ui_out w ++
      (if Headless config then [UiMessage headless_warning] else []) ++
      (if decide (Accelerator config ≠ "none") then [] else [UiMessage no_accel_warning]) ∧
    driver_calls w' = driver_calls w ∧
    defaultArgs !! "-display" = (if Headless config then None else Some "sdl") ∧
    defaultArgs !! "-vnc" = Some ("0.0.0.0:" +:+ fmt_uint (uint_sub arch vncPort 5900)) ∧
    defaultArgs !! "-boot" = Some bootDrive ∧
    defaultArgs !! "-m" = Some "512M".
Proof.
  intros Hfloppy.
  cbv [buildDefaultArgs bind ret ui_Message log_Println as_string panic].
  destruct (Headless config); destruct (decide (Accelerator config ≠ "none"));
    destruct Hfloppy as [-> | [path ->]];
    (eexists _, _; split; [reflexivity|]); cbn [ui_out driver_calls];
    rewrite ?app_nil_r, <- ?app_assoc;
    (split; [reflexivity|]); (split; [reflexivity|]);
    destruct (DiskImage config); repeat split; by simplify_map_eq.
Qed.

(** C6.  With [Headless] set, the defaults of getCommandArgs hold no
    [-display] and the UI receives the headless warning exactly once; with
    [Headless] unset, [-display] is [sdl] and the warning is not sent. *)
Theorem headless_display_and_warning bootDrive state config isoPath vncPort sshHostPort w :
  floppy_ok state →
  ∃ defaultArgs w' said,
    buildDefaultArgs arch filepath_Join strings_ToLower bootDrive state config
      isoPath vncPort sshHostPort w = Done defaultArgs w' ∧
    ui_out w' = ui_out w ++ said ∧
    (Headless config = true →
       defaultArgs !! "-display" = None ∧
       length (filter (λ e, e = UiMessage headless_warning) said) = 1%nat) ∧
    (Headless config = false →
       defaultArgs !! "-display" = Some "sdl" ∧
       UiMessage headless_warning ∉ said).
Proof.
  intros Hfloppy.
  destruct (buildDefaultArgs_spec bootDrive state config isoPath vncPort sshHostPort w Hfloppy)
    as (defaultArgs & w' & Hrun & Hui & _ & Hdisplay & _).
  eexists defaultArgs, w', _. split; [done|]. split; [exact Hui|].
  assert (Hne : UiMessage no_accel_warning ≠ UiMessage headless_warning).
  { intros H. apply warnings_differ. congruence. }
  split; intros Hheadless; rewrite Hheadless in *; (split; [done|]).
  - case_decide; cbn [app]; rewrite filter_cons_True by done; [done|].
    by rewrite filter_cons_False.
  - case_decide; cbn [app]; [apply not_elem_of_nil|].
    intros Hin%list_elem_of_singleton. by apply Hne.
Qed.

(** C7.  The default of [-vnc] is [0.0.0.0:] followed by the decimal
    digits of the VNC port minus 5900, the subtraction being that of
    [uint]; from port 5900 up it is the difference of the integers. *)
Theorem vnc_default_is_port_minus_5900 bootDrive state config isoPath vncPort sshHostPort w :
  floppy_ok state →
  ∃ defaultArgs w',
    buildDefaultArgs arch filepath_Join strings_ToLower bootDrive state config
      isoPath vncPort sshHostPort w = Done defaultArgs w' ∧
    defaultArgs !! "-vnc" = Some ("0.0.0.0:" +:+ fmt_uint (uint_sub arch vncPort 5900)) ∧
    (5900 ≤ vncPort < uint_modulus arch →
       defaultArgs !! "-vnc" = Some ("0.0.0.0:" +:+ pretty (vncPort - 5900))).
Proof.
  intros Hfloppy.
  destruct (buildDefaultArgs_spec bootDrive state config isoPath vncPort sshHostPort w Hfloppy)
    as (defaultArgs & w' & Hrun & _ & _ & _ & Hvnc & _).
  exists defaultArgs, w'. split; [done|]. split; [done|].
  intros Hport. rewrite Hvnc. unfold fmt_uint, uint_sub.
  rewrite Z.mod_small; [done | lia].
Qed.

(** C9.  The port written into [-vnc] is [(vncPort - 5900) mod 2^w]: it is
    never negative and the defaults are built all the same; below 5900 it
    is [vncPort + 2^w - 5900], at least [2^32 - 5900]. *)
Theorem vnc_port_wraps_around bootDrive state config isoPath vncPort sshHostPort w :
  floppy_ok state → 0 ≤ vncPort < uint_modulus arch →
  ∃ defaultArgs w' port,
    buildDefaultArgs arch filepath_Join strings_ToLower bootDrive state config
      isoPath vncPort sshHostPort w = Done defaultArgs w' ∧
    defaultArgs !! "-vnc" = Some ("0.0.0.0:" +:+ fmt_uint port) ∧
    port = (vncPort - 5900) mod 2 ^ bits arch ∧
    0 ≤ port < 2 ^ bits arch ∧
    (vncPort < 5900 → port = vncPort + 2 ^ bits arch - 5900 ∧ 2 ^ 32 - 5900 ≤ port).
Proof.
  intros Hfloppy Hport.
  destruct (buildDefaultArgs_spec bootDrive state config isoPath vncPort sshHostPort w Hfloppy)
    as (defaultArgs & w' & Hrun & _ & _ & _ & Hvnc & _).
  exists defaultArgs, w', (uint_sub arch vncPort 5900).
  split; [done|]. split; [done|]. split; [done|].
  unfold uint_sub, uint_modulus in *.
  assert (Hmod : 2 ^ 32 ≤ 2 ^ bits arch) by (destruct arch; simpl; lia).
  split; [apply Z.mod_pos_bound; lia|].
  intros Hlow.
  assert (Hwrap : (vncPort - 5900) mod 2 ^ bits arch = vncPort + 2 ^ bits arch - 5900).
  { rewrite <- (Z.mod_add _ 1) by lia. rewrite Z.mod_small; lia. }
  rewrite Hwrap. lia.
Qed.

(** C8.  With the driver and the UI in the state, Cleanup asks the driver
    to stop exactly once and returns; an error of the stop is reported to
    the UI and goes no further. *)
Theorem cleanup_stops_once_and_returns (s : stepRun) state (d : Driver) w :
  state !! "driver" = Some (VDriver d) → state !! "ui" = Some VUi →
  ∃ w',
    Cleanup s state w = Done tt w' ∧
    driver_calls w' = driver_calls w ++ [CallStop] ∧
    ui_out w' = ui_out w ++
      match Stop d with
      | Some err => [UiError ("Error shutting down VM: " +:+ err)]
      | None => []
      end ∧
    log_out w' = log_out w.
Proof.
  intros Hdriver Hui. unfold Cleanup, bind. rewrite Hdriver, Hui. simpl.
  destruct (Stop d) as [err|]; eexists; (split; [reflexivity|]); simpl.
  - done.
  - by rewrite app_nil_r.
Qed.


(** ** Argument synthesis as a whole *)

Lemma launch_state_run ro bootDrive state config isoPath vncPort sshHostPort httpPort w :
  launch_state state config isoPath vncPort sshHostPort httpPort →
  getCommandArgs arch Render filepath_Join strings_ToLower ro bootDrive state w =
    bind (buildDefaultArgs arch filepath_Join strings_ToLower bootDrive state config
            isoPath vncPort sshHostPort)
      (λ defaultArgs,
         bind (overrideQemuArgs Render state config)
           (λ overridden,
              match overridden with
              | inr err => ret (None, Some err)
              | inl inArgs => ret (Some (flatten ro (backfill ro defaultArgs inArgs)), None)
              end)) w.
Proof.
  intros (Hconfig & Hiso & Hvnc & Hssh & _ & Hui).
  unfold getCommandArgs. by rewrite Hconfig, Hiso, Hvnc, Hssh, Hui.
Qed.

(** With the state of a launch and fragments that all render,
    getCommandArgs returns what [mergeArgs] makes of the rendered rows and
    of the defaults it has built, and panics where [mergeArgs] does. *)
Lemma getCommandArgs_merges ro bootDrive state config isoPath vncPort sshHostPort
    httpPort w defaultArgs w1 newQemuArgs :
  launch_state state config isoPath vncPort sshHostPort httpPort →
  buildDefaultArgs arch filepath_Join strings_ToLower bootDrive state config
    isoPath vncPort sshHostPort w = Done defaultArgs w1 →
  renderRows Render (elems (QemuArgs config)) (qemuArgs_ctx config httpPort)
    = inl newQemuArgs →
  ∃ w2,
    driver_calls w2 = driver_calls w1 ∧
    getCommandArgs arch Render filepath_Join strings_ToLower ro bootDrive state w =
      match mergeArgs ro newQemuArgs defaultArgs with
      | Some outArgs => Done (Some outArgs, None) w2
      | None => Panicked w2
      end.
Proof.
  intros Hstate Hrun Hrender.
  rewrite (launch_state_run ro _ _ _ _ _ _ _ _ Hstate).
  destruct Hstate as (_ & _ & _ & _ & Hhttp & _).
  unfold bind at 1. rewrite Hrun. unfold bind at 1, overrideQemuArgs, mergeArgs.
  case_decide as Hlen.
  - unfold bind, ui_Say. rewrite Hhttp. cbn [as_uint ret].
    destruct (QemuArgs config) as [rows|] eqn:Hrows; [|simpl in Hlen; lia].
    unfold processArgs. simpl in Hrender. rewrite Hrender. cbn [elems default id].
    eexists. split; [|destruct (overrideArgs ∅ newQemuArgs); reflexivity]. done.
  - destruct (elems (QemuArgs config)) as [|row rows]; [|simpl in Hlen; lia].
    simpl in Hrender. injection Hrender as <-. exists w1. by split.
Qed.


(** C4.  When a fragment of an override row fails to render, processArgs
    returns a nil slice and the error of the first fragment that fails,
    and getCommandArgs returns nil and that error: no token sequence. *)
Theorem render_failure_aborts_synthesis ro bootDrive state config
    isoPath vncPort sshHostPort httpPort rows rowArgs parm err0 w :
  launch_state state config isoPath vncPort sshHostPort httpPort →
  floppy_ok state →
  QemuArgs config = Some rows → rowArgs ∈ rows → parm ∈ rowArgs →
  Render parm (qemuArgs_ctx config httpPort) = inr err0 →
  ∃ err w',
    first_failure Render (qemuArgs_ctx config httpPort) (mjoin rows) err ∧
    processArgs Render (Some rows) (qemuArgs_ctx config httpPort) = (None, Some err) ∧
    getCommandArgs arch Render filepath_Join strings_ToLower ro bootDrive state w =
      Done (None, Some err) w'.
Proof.
  intros Hstate Hfloppy Hrows Hrow Hparm Hfail.
  destruct (renderRows_fails _ rows rowArgs parm err0 Hrow Hparm Hfail) as (err & Herr & Hfirst).
  assert (Hprocess :
    processArgs Render (Some rows) (qemuArgs_ctx config httpPort) = (None, Some err)).
  { unfold processArgs. by rewrite Herr. }
  destruct (buildDefaultArgs_spec bootDrive state config isoPath vncPort sshHostPort w Hfloppy)
    as (defaultArgs & w1 & Hrun & _).
  exists err. eexists. split; [done|]. split; [done|].
  rewrite (launch_state_run ro _ _ _ _ _ _ _ _ Hstate).
  destruct Hstate as (_ & _ & _ & _ & Hhttp & _).
  unfold bind at 1. rewrite Hrun. unfold bind at 1, overrideQemuArgs.
  rewrite Hrows. rewrite decide_True.
  - unfold bind, ui_Say. rewrite Hhttp. cbn [as_uint ret].
    fold (qemuArgs_ctx config httpPort). rewrite Hprocess. reflexivity.
  - destruct rows; [by apply not_elem_of_nil in Hrow | simpl; lia].
Qed.

(** The map that is flattened does not depend on the order in which the
    defaults are visited. *)
Lemma backfill_order_irrelevant ro1 ro2 (D : gmap string string)
    (inArgs : gmap string (list string)) :
  fair ro1 → fair ro2 → backfill ro1 D inArgs = backfill ro2 D inArgs.
Proof. intros H1 H2. apply map_eq. intros k. by rewrite !backfill_lookup. Qed.

(** C5.  Two runs of getCommandArgs on the same state, whatever the order
    in which each visits its maps, end in the same world and either both
    return the flattening of one and the same map from key to ordered
    value list, which is what either output reads back as, or return the
    same error, or both panic.  The flat token sequences themselves may
    differ. *)
Theorem synthesis_buckets_independent_of_order :
  (∀ ro1 ro2 bootDrive state w, fair ro1 → fair ro2 →
     (∃ inArgs w',
        getCommandArgs arch Render filepath_Join strings_ToLower ro1 bootDrive state w =
          Done (Some (flattenGroups ro1 inArgs ≫= tokens), None) w' ∧
        getCommandArgs arch Render filepath_Join strings_ToLower ro2 bootDrive state w =
          Done (Some (flattenGroups ro2 inArgs ≫= tokens), None) w' ∧
        buckets_of (flattenGroups ro1 inArgs) = inArgs ∧
        buckets_of (flattenGroups ro2 inArgs) = inArgs) ∨
     (getCommandArgs arch Render filepath_Join strings_ToLower ro1 bootDrive state w =
        getCommandArgs arch Render filepath_Join strings_ToLower ro2 bootDrive state w ∧
      ∀ out err w',
        getCommandArgs arch Render filepath_Join strings_ToLower ro1 bootDrive state w ≠
          Done (Some out, err) w')) ∧
  (∀ base : ContextBase, ∃ bootDrive state w,
     getCommandArgs arch Render filepath_Join strings_ToLower canonical_order bootDrive state w ≠
     getCommandArgs arch Render filepath_Join strings_ToLower reverse_order bootDrive state w).
Proof.
  split.
  - intros ro1 ro2 bootDrive state w Hfair1 Hfair2.
    unfold getCommandArgs, bind.
    destruct (as_Config (state !! "config") w) as [config w1|w1]; [|by right].
    destruct (as_string (state !! "iso_path") w1) as [isoPath w2|w2]; [|by right].
    destruct (as_uint (state !! "vnc_port") w2) as [vncPort w3|w3]; [|by right].
    destruct (as_uint (state !! "sshHostPort") w3) as [sshHostPort w4|w4]; [|by right].
    destruct (as_Ui (state !! "ui") w4) as [[] w5|w5]; [|by right].
    destruct (buildDefaultArgs arch filepath_Join strings_ToLower bootDrive state config
                isoPath vncPort sshHostPort w5) as [defaultArgs w6|w6]; [|by right].
    destruct (overrideQemuArgs Render state config w6) as [[inArgs|err] w7|w7];
      [|by right..].
    left. exists (backfill ro1 defaultArgs inArgs), w7. unfold ret.
    rewrite !flatten_groups, <- (backfill_order_irrelevant ro1 ro2) by done.
    by rewrite !buckets_of_flattenGroups.
  - intros base.
    set (config := {| VMName := "vm"; Config_OutputDir := "out"; Format := "qcow2";
                      Headless := true; MachineType := "pc"; NetDevice := "e1000";
                      DiskInterface := "ide"; DiskCache := "none"; DiskDiscard := "ignore";
                      DiskImage := true; Accelerator := "kvm"; QemuArgs := None;
                      Config_HTTPDir := "http"; ctx := base |}).
    exists "c",
      (<["config" := VConfig config]> (<["iso_path" := VString "os.iso"]>
       (<["vnc_port" := VUint 5901]> (<["sshHostPort" := VUint 2222]>
       (<["ui" := VUi]> ∅))))),
      {| ui_out := []; driver_calls := []; log_out := [] |}.
    intros H. vm_compute in H. discriminate H.
Qed.


(** ** More on rendering *)

Lemma Forall2_rendered_shape ctx (args newArgs : list (list string)) :
  Forall2 (Forall2 (λ p s, Render p ctx = inl s)) args newArgs →
  length <$> newArgs = length <$> args.
Proof.
  induction 1 as [|row parms args newArgs Hrow _ IH]; [done|].
  rewrite !fmap_cons, IH. f_equal. symmetry. by eapply Forall2_length.
Qed.

(** X6.  When every fragment renders, processArgs returns no error and a
    slice that is not nil, of the shape of its argument: as many rows, each
    as long as the row it comes from, each fragment the rendering of the
    fragment at its place.  A nil argument gives the empty slice. *)
Theorem processArgs_keeps_the_shape (args : option (list (list string))) ctx :
  (∀ row parm, row ∈ elems args → parm ∈ row → ∃ s, Render parm ctx = inl s) →
  ∃ newArgs,
    processArgs Render args ctx = (Some newArgs, None) ∧
    Forall2 (Forall2 (λ p s, Render p ctx = inl s)) (elems args) newArgs ∧
    length <$> newArgs = length <$> elems args.
Proof.
  intros Hall. destruct args as [rows|]; cbn [elems default processArgs] in Hall |- *.
  - pose proof (renderRows_spec ctx rows) as Hspec.
    destruct (renderRows Render rows ctx) as [newArgs|err].
    + exists newArgs. split; [done|]. split; [done|].
      by apply (Forall2_rendered_shape ctx).
    + exfalso. destruct Hspec as (before & parm & after & Hsplit & _ & Hfail).
      assert (Hparm : parm ∈ mjoin rows)
        by (rewrite Hsplit; apply elem_of_app; right; left).
      apply list_elem_of_join in Hparm as (row & Hparm & Hrow).
      destruct (Hall row parm Hrow Hparm) as [s Hs]. congruence.
  - exists []. split; [done|]. split; [constructor | done].
Qed.

(** X7.  processArgs returns an error exactly when a fragment of a row
    fails to render, and then it returns a nil slice. *)
Theorem processArgs_fails_iff_a_fragment_fails (args : option (list (list string))) ctx :
  (∃ err, processArgs Render args ctx = (None, Some err)) ↔
  (∃ row parm err0, row ∈ elems args ∧ parm ∈ row ∧ Render parm ctx = inr err0).
Proof.
  split.
  - intros [err Herr]. destruct args as [rows|]; [|done].
    cbn [elems default processArgs] in Herr |- *.
    pose proof (renderRows_spec ctx rows) as Hspec.
    destruct (renderRows Render rows ctx) as [newArgs|err']; [done|].
    destruct Hspec as (before & parm & after & Hsplit & _ & Hfail).
    assert (Hparm : parm ∈ mjoin rows)
        by (rewrite Hsplit; apply elem_of_app; right; left).
    apply list_elem_of_join in Hparm as (row & Hparm & Hrow).
    by exists row, parm, err'.
  - intros (row & parm & err0 & Hrow & Hparm & Hfail).
    destruct args as [rows|]; cbn [elems default processArgs] in Hrow |- *;
      [|by apply not_elem_of_nil in Hrow].
    destruct (renderRows_fails ctx rows row parm err0 Hrow Hparm Hfail) as (err & Herr & _).
    exists err. by rewrite Herr.
Qed.

(** ** What the functions ask of the collaborators *)

Lemma talks_only_ret {A} (a : A) : talks_only (ret a).
Proof. intros w. done. Qed.

Lemma talks_only_panic {A} : talks_only (@panic A).
Proof. intros w. done. Qed.

Lemma talks_only_bind {A B} (c : M A) (k : A → M B) :
  talks_only c → (∀ a, talks_only (k a)) → talks_only (bind c k).
Proof.
  intros Hc Hk w. unfold bind. specialize (Hc w).
  destruct (c w) as [a w1|w1]; simpl in Hc; [|done].
  destruct (Hk a w1) as (Hd & Hu & Hl), Hc as (Hd' & Hu' & Hl').
  split; [congruence|]. split; by etrans.
Qed.

Lemma talks_only_ui_Say message : talks_only (ui_Say message).
Proof. intros w. simpl. split; [done|]. split; [by apply prefix_app_r | done]. Qed.

Lemma talks_only_ui_Message message : talks_only (ui_Message message).
Proof. intros w. simpl. split; [done|]. split; [by apply prefix_app_r | done]. Qed.

Lemma talks_only_ui_Error message : talks_only (ui_Error message).
Proof. intros w. simpl. split; [done|]. split; [by apply prefix_app_r | done]. Qed.

Lemma talks_only_log_Println line : talks_only (log_Println line).
Proof. intros w. simpl. split; [done|]. split; [done | by apply prefix_app_r]. Qed.

Lemma talks_only_as_Config (v : option (Value ContextBase)) : talks_only (as_Config v).
Proof. destruct v as [[]|]; intros w; done. Qed.

Lemma talks_only_as_string (v : option (Value ContextBase)) : talks_only (as_string v).
Proof. destruct v as [[]|]; intros w; done. Qed.

Lemma talks_only_as_uint (v : option (Value ContextBase)) : talks_only (as_uint v).
Proof. destruct v as [[]|]; intros w; done. Qed.

Lemma talks_only_as_Ui (v : option (Value ContextBase)) : talks_only (as_Ui v).
Proof. destruct v as [[]|]; intros w; done. Qed.

Create HintDb talks discriminated.

#[local] Hint Resolve talks_only_ret talks_only_panic talks_only_ui_Say
  talks_only_ui_Message talks_only_ui_Error talks_only_log_Println
  talks_only_as_Config talks_only_as_string talks_only_as_uint talks_only_as_Ui : talks.

Ltac talks :=
  repeat first
    [ apply talks_only_bind; [|intros ?]
    | progress auto with talks
    | match goal with
      | |- talks_only (if ?b then _ else _) => destruct b
      | |- talks_only (match ?x with _ => _ end) => destruct x
      end ].

Lemma talks_only_buildDefaultArgs bootDrive state config isoPath vncPort sshHostPort :
  talks_only (buildDefaultArgs arch filepath_Join strings_ToLower bootDrive state config
                isoPath vncPort sshHostPort).
Proof. unfold buildDefaultArgs. talks. Qed.

Lemma talks_only_overrideQemuArgs state config :
  talks_only (overrideQemuArgs Render state config).
Proof. unfold overrideQemuArgs. talks. Qed.

Lemma getCommandArgs_talks_only ro bootDrive state :
  talks_only (getCommandArgs arch Render filepath_Join strings_ToLower ro bootDrive state).
Proof.
  unfold getCommandArgs. talks. apply talks_only_overrideQemuArgs.
Qed.

(** X8.  getCommandArgs never calls the driver, and what the UI and the
    logger were told before it, they still hold after it, in the same
    order: this for every state, whether it returns tokens, returns an
    error or panics. *)
Theorem getCommandArgs_leaves_the_driver_alone ro bootDrive state :
  talks_only (getCommandArgs arch Render filepath_Join strings_ToLower ro bootDrive state).
Proof. apply getCommandArgs_talks_only. Qed.


(** X9.  Whatever the state, Run calls the driver at most once, to start
    the machine and never to stop it, and Cleanup calls it at most once,
    to stop it. *)
Theorem run_and_cleanup_call_the_driver_at_most_once ro (s : stepRun) state w :
  (driver_calls (final (Run arch Render filepath_Join strings_ToLower ro s state w))
     = driver_calls w ∨
   ∃ qemuArgs,
     driver_calls (final (Run arch Render filepath_Join strings_ToLower ro s state w))
       = driver_calls w ++ [CallQemu qemuArgs]) ∧
  (driver_calls (final (Cleanup s state w)) = driver_calls w ∨
   driver_calls (final (Cleanup s state w)) = driver_calls w ++ [CallStop]).
Proof.
  split.
  - unfold Run, bind.
    destruct (state !! "driver") as [[| | |d|]|]; simpl; try by left.
    destruct (state !! "ui") as [[]|]; simpl; try by left.
    set (w1 := {| ui_out := _ |}).
    destruct (getCommandArgs_talks_only ro (BootDrive s) state w1)
      as (Hcalls & _).
    destruct (getCommandArgs arch Render filepath_Join strings_ToLower ro (BootDrive s)
                state w1) as [[command [err|]] w2|w2]; simpl in Hcalls |- *.
    + left. by rewrite Hcalls.
    + right. exists (elems command).
      destruct (Qemu d (elems command)); simpl; by rewrite Hcalls.
    + left. by rewrite Hcalls.
  - unfold Cleanup, bind.
    destruct (state !! "driver") as [[| | |d|]|]; simpl; try by left.
    destruct (state !! "ui") as [[]|]; simpl; try by left.
    right. by destruct (Stop d).
Qed.

(** X10.  getCommandArgs panics at once, before it has told the UI or
    the logger anything, when the state lacks the configuration, the ISO
    path, the VNC port, the SSH port or the UI. *)
Theorem getCommandArgs_panics_on_a_missing_entry ro bootDrive state w :
  state !! "config" = None ∨ state !! "iso_path" = None ∨
  state !! "vnc_port" = None ∨ state !! "sshHostPort" = None ∨ state !! "ui" = None →
  getCommandArgs arch Render filepath_Join strings_ToLower ro bootDrive state w = Panicked w.
Proof.
  intros Hmissing. unfold getCommandArgs, bind.
  destruct (state !! "config") as [[]|]; simpl; try done.
  destruct (state !! "iso_path") as [[]|]; simpl; try done.
  destruct (state !! "vnc_port") as [[]|]; simpl; try done.
  destruct (state !! "sshHostPort") as [[]|]; simpl; try done.
  destruct (state !! "ui") as [[]|]; simpl; try done.
  naive_solver.
Qed.


(** ** More on the defaults *)

Lemma buildDefaultArgs_full bootDrive state config isoPath vncPort sshHostPort w :
  floppy_ok state →
  ∃ defaultArgs w',
    buildDefaultArgs arch filepath_Join strings_ToLower bootDrive state config
      isoPath vncPort sshHostPort w = Done defaultArgs w' ∧
    dom defaultArgs = default_keys state config ∧
    defaultArgs !! "-machine" =
      Some (if decide (Accelerator config ≠ "none")
            then ("type=" +:+ MachineType config) +:+ ",accel=" +:+ Accelerator config
            else "type=" +:+ MachineType config) ∧
    defaultArgs !! "-cdrom" = (if DiskImage config then None else Some isoPath) ∧
    defaultArgs !! "-fda" =
      match state !! "floppy_path" with
      | Some (VString path) => Some path
      | _ => None
      end ∧
    log_out w' = log_out w ++
      match state !! "floppy_path" with
      | None => ["Qemu Builder has no floppy files, not attaching a floppy."]
      | Some _ => []
      end.
Proof.
  intros Hfloppy.
  cbv [buildDefaultArgs bind ret ui_Message log_Println as_string panic default_keys].
  destruct (Headless config); destruct (decide (Accelerator config ≠ "none"));
    destruct Hfloppy as [-> | [path ->]];
    (eexists _, _; split; [reflexivity|]); cbn [log_out];
    destruct (DiskImage config);
    (split; [rewrite !dom_insert_L, dom_empty_L; set_solver|]);
    rewrite ?app_nil_r; repeat split; by simplify_map_eq.
Qed.

(** X11.  The defaults hold exactly the keys [-name], [-machine],
    [-netdev], [-device], [-drive], [-boot], [-m] and [-vnc], with
    [-display] unless the run is headless, [-cdrom] unless a disk image is
    booted, and [-fda] when the state has a floppy path. *)
Theorem defaults_have_exactly_these_keys bootDrive state config isoPath vncPort sshHostPort w :
  floppy_ok state →
  ∃ defaultArgs w',
    buildDefaultArgs arch filepath_Join strings_ToLower bootDrive state config
      isoPath vncPort sshHostPort w = Done defaultArgs w' ∧
    dom defaultArgs = default_keys state config.
Proof.
  intros Hfloppy.
  destruct (buildDefaultArgs_full bootDrive state config isoPath vncPort sshHostPort w Hfloppy)
    as (defaultArgs & w' & Hrun & Hdom & _).
  by exists defaultArgs, w'.
Qed.

(** X12.  The default of [-machine] is the machine type, followed by the
    accelerator unless the accelerator is [none]; in that case, and in
    that case only, the UI receives the warning about acceleration, once. *)
Theorem machine_default_and_acceleration_warning bootDrive state config isoPath
    vncPort sshHostPort w :
  floppy_ok state →
  ∃ defaultArgs w' said,
    buildDefaultArgs arch filepath_Join strings_ToLower bootDrive state config
      isoPath vncPort sshHostPort w = Done defaultArgs w' ∧
    ui_out w' = ui_out w ++ said ∧
    (Accelerator config ≠ "none" →
       defaultArgs !! "-machine" =
         Some (("type=" +:+ MachineType config) +:+ ",accel=" +:+ Accelerator config) ∧
       UiMessage no_accel_warning ∉ said) ∧
    (Accelerator config = "none" →
       defaultArgs !! "-machine" = Some ("type=" +:+ MachineType config) ∧
       length (filter (λ e, e = UiMessage no_accel_warning) said) = 1%nat).
Proof.
  intros Hfloppy.
  destruct (buildDefaultArgs_full bootDrive state config isoPath vncPort sshHostPort w Hfloppy)
    as (defaultArgs & w' & Hrun & _ & Hmachine & _).
  destruct (buildDefaultArgs_spec bootDrive state config isoPath vncPort sshHostPort w Hfloppy)
    as (defaultArgs' & w'' & Hrun' & Hui & _).
  rewrite Hrun in Hrun'. injection Hrun' as <- <-.
  eexists defaultArgs, w', _. split; [done|]. split; [exact Hui|].
  assert (Hne : UiMessage headless_warning ≠ UiMessage no_accel_warning).
  { intros H. apply warnings_differ. congruence. }
  split; intros Haccel.
  - rewrite decide_True in Hmachine by done. split; [done|].
    rewrite decide_True by done. rewrite app_nil_r.
    destruct (Headless config); [|apply not_elem_of_nil].
    intros Hin%list_elem_of_singleton. by apply Hne.
  - rewrite decide_False in Hmachine by (intros H; by apply H). split; [done|].
    rewrite decide_False by (intros H; by apply H).
    destruct (Headless config); cbn [app].
    + rewrite filter_cons_False by (intros H; by apply Hne). by rewrite filter_cons_True.
    + by rewrite filter_cons_True.
Qed.

(** X13.  The defaults hold [-cdrom], with the ISO path, exactly when no
    disk image is booted, and [-fda], with the floppy path, exactly when
    the state has one; without a floppy path the logger is told so, and
    that is all it is told. *)
Theorem cdrom_and_floppy_defaults bootDrive state config isoPath vncPort sshHostPort w :
  floppy_ok state →
  ∃ defaultArgs w',
    buildDefaultArgs arch filepath_Join strings_ToLower bootDrive state config
      isoPath vncPort sshHostPort w = Done defaultArgs w' ∧
    defaultArgs !! "-cdrom" = (if DiskImage config then None else Some isoPath) ∧
    (∀ path, state !! "floppy_path" = Some (VString path) →
       defaultArgs !! "-fda" = Some path ∧ log_out w' = log_out w) ∧
    (state !! "floppy_path" = None →
       defaultArgs !! "-fda" = None ∧
       log_out w' = log_out w ++
         ["Qemu Builder has no floppy files, not attaching a floppy."]).
Proof.
  intros Hfloppy.
  destruct (buildDefaultArgs_full bootDrive state config isoPath vncPort sshHostPort w Hfloppy)
    as (defaultArgs & w' & Hrun & _ & _ & Hcdrom & Hfda & Hlog).
  exists defaultArgs, w'. split; [done|]. split; [done|]. split.
  - intros path Hpath. rewrite Hpath in Hfda, Hlog. by rewrite app_nil_r in Hlog.
  - intros Hnone. by rewrite Hnone in Hfda, Hlog.
Qed.

Lemma uint_sub_inj (x y c : Z) :
  0 ≤ x < uint_modulus arch → 0 ≤ y < uint_modulus arch →
  uint_sub arch x c = uint_sub arch y c → x = y.
Proof.
  unfold uint_sub. intros Hx Hy Heq.
  assert (Hpos : 0 < uint_modulus arch) by lia.
  pose proof (Z.div_mod (x - c) (uint_modulus arch)) as Hdx.
  pose proof (Z.div_mod (y - c) (uint_modulus arch)) as Hdy.
  rewrite Heq in Hdx.
  assert ((x - c) `div` uint_modulus arch = (y - c) `div` uint_modulus arch); nia.
Qed.

(** X14.  Two VNC ports that a [uint] can hold and that differ give
    different defaults of [-vnc]: the wrap-around below 5900 never makes
    two ports meet. *)
Theorem distinct_ports_give_distinct_vnc_defaults bootDrive state config isoPath
    vncPort1 vncPort2 sshHostPort w :
  floppy_ok state →
  0 ≤ vncPort1 < uint_modulus arch → 0 ≤ vncPort2 < uint_modulus arch →
  vncPort1 ≠ vncPort2 →
  ∃ defaultArgs1 w1 defaultArgs2 w2,
    buildDefaultArgs arch filepath_Join strings_ToLower bootDrive state config
      isoPath vncPort1 sshHostPort w = Done defaultArgs1 w1 ∧
    buildDefaultArgs arch filepath_Join strings_ToLower bootDrive state config
      isoPath vncPort2 sshHostPort w = Done defaultArgs2 w2 ∧
    defaultArgs1 !! "-vnc" ≠ defaultArgs2 !! "-vnc".
Proof.
  intros Hfloppy Hport1 Hport2 Hports.
  destruct (buildDefaultArgs_spec bootDrive state config isoPath vncPort1 sshHostPort w Hfloppy)
    as (D1 & w1 & Hrun1 & _ & _ & _ & Hvnc1 & _).
  destruct (buildDefaultArgs_spec bootDrive state config isoPath vncPort2 sshHostPort w Hfloppy)
    as (D2 & w2 & Hrun2 & _ & _ & _ & Hvnc2 & _).
  exists D1, w1, D2, w2. split; [done|]. split; [done|].
  rewrite Hvnc1, Hvnc2. intros Hvnc. apply Hports.
  assert (Heq : fmt_uint (uint_sub arch vncPort1 5900) = fmt_uint (uint_sub arch vncPort2 5900)).
  { apply (inj (String.app "0.0.0.0:")). congruence. }
  unfold fmt_uint in Heq. apply (inj pretty) in Heq. by apply (uint_sub_inj _ _ 5900).
Qed.


(** ** More on argument synthesis as a whole *)

Lemma renderRows_all_render ctx (rows : list (list string)) :
  (∀ row parm, row ∈ rows → parm ∈ row → ∃ s, Render parm ctx = inl s) →
  ∃ newArgs,
    renderRows Render rows ctx = inl newArgs ∧
    Forall2 (Forall2 (λ p s, Render p ctx = inl s)) rows newArgs.
Proof.
  intros Hall. pose proof (renderRows_spec ctx rows) as Hspec.
  destruct (renderRows Render rows ctx) as [newArgs|err]; [by exists newArgs|].
  exfalso. destruct Hspec as (before & parm & after & Hsplit & _ & Hfail).
  assert (Hparm : parm ∈ mjoin rows)
        by (rewrite Hsplit; apply elem_of_app; right; left).
  apply list_elem_of_join in Hparm as (row & Hparm & Hrow).
  destruct (Hall row parm Hrow Hparm) as [s Hs]. congruence.
Qed.

Lemma Forall2_rendered_empty_row ctx (args newArgs : list (list string)) :
  Forall2 (Forall2 (λ p s, Render p ctx = inl s)) args newArgs →
  [] ∈ args ↔ [] ∈ newArgs.
Proof.
  induction 1 as [|row parms args newArgs Hrow _ IH]; [done|].
  rewrite !elem_of_cons, IH.
  assert (Hnil : [] = row ↔ [] = parms).
  { destruct Hrow; split; intros; done. }
  by rewrite Hnil.
Qed.

(** getCommandArgs on the state of a launch: what it returns is decided by
    the rendering of the rows and by the merger, and the UI has been told
    [launch_said]. *)
Lemma getCommandArgs_launch ro bootDrive state config isoPath vncPort sshHostPort
    httpPort w :
  launch_state state config isoPath vncPort sshHostPort httpPort →
  floppy_ok state →
  ∃ defaultArgs w1 w2,
    buildDefaultArgs arch filepath_Join strings_ToLower bootDrive state config
      isoPath vncPort sshHostPort w = Done defaultArgs w1 ∧
    driver_calls w2 = driver_calls w ∧
    ui_out w2 = ui_out w ++ launch_said config ∧
    getCommandArgs arch Render filepath_Join strings_ToLower ro bootDrive state w =
      match renderRows Render (elems (QemuArgs config)) (qemuArgs_ctx config httpPort) with
      | inr err => Done (None, Some err) w2
      | inl newQemuArgs =>
          match mergeArgs ro newQemuArgs defaultArgs with
          | Some outArgs => Done (Some outArgs, None) w2
          | None => Panicked w2
          end
      end.
Proof.
  intros Hstate Hfloppy.
  destruct (buildDefaultArgs_spec bootDrive state config isoPath vncPort sshHostPort w Hfloppy)
    as (defaultArgs & w1 & Hrun & Hui & Hcalls & _).
  rewrite (launch_state_run ro _ _ _ _ _ _ _ _ Hstate).
  destruct Hstate as (_ & _ & _ & _ & Hhttp & _).
  unfold bind at 1. rewrite Hrun. unfold bind at 1, overrideQemuArgs, mergeArgs, launch_said.
  exists defaultArgs, w1.
  destruct (elems (QemuArgs config)) as [|row rows] eqn:Helems.
  - rewrite !(decide_False (P := (0 < length [])%nat)) by (simpl; lia).
    exists w1. split; [done|]. split; [done|]. split; [by rewrite Hui, app_nil_r|].
    reflexivity.
  - rewrite !(decide_True (P := (0 < length (row :: rows))%nat)) by (simpl; lia).
    unfold bind, ui_Say. rewrite Hhttp. cbn [as_uint ret].
    destruct (QemuArgs config) as [rows'|] eqn:Hrows; [|done].
    simpl in Helems. subst rows'. unfold processArgs.
    eexists. split; [done|]. split; [|split]; cycle 2.
    + destruct (renderRows Render (row :: rows) (qemuArgs_ctx config httpPort))
        as [newArgs|err]; [|reflexivity].
      cbn [elems default id]. destruct (overrideArgs ∅ newArgs); reflexivity.
    + done.
    + cbn [ui_out]. by rewrite Hui, <- !app_assoc.
Qed.

(** X15.  A row without elements among the override rows, when every
    fragment renders, makes getCommandArgs panic: after the UI was told of
    the overrides, and before the driver is called. *)
Theorem getCommandArgs_panics_on_an_empty_row ro bootDrive state config
    isoPath vncPort sshHostPort httpPort w :
  launch_state state config isoPath vncPort sshHostPort httpPort →
  floppy_ok state →
  (∀ row parm, row ∈ elems (QemuArgs config) → parm ∈ row →
     ∃ s, Render parm (qemuArgs_ctx config httpPort) = inl s) →
  [] ∈ elems (QemuArgs config) →
  ∃ w',
    getCommandArgs arch Render filepath_Join strings_ToLower ro bootDrive state w
      = Panicked w' ∧
    driver_calls w' = driver_calls w ∧
    ui_out w' = ui_out w ++ launch_said config ∧
    UiSay overriding_message ∈ launch_said config.
Proof.
  intros Hstate Hfloppy Hall Hempty.
  destruct (getCommandArgs_launch ro bootDrive state config isoPath vncPort sshHostPort
              httpPort w Hstate Hfloppy) as (defaultArgs & w1 & w2 & _ & Hcalls & Hui & Hrun).
  destruct (renderRows_all_render _ _ Hall) as (newArgs & Hrender & Hshape).
  rewrite Hrender in Hrun.
  assert (Hnone : mergeArgs ro newArgs defaultArgs = None).
  { apply mergeArgs_None_iff. by apply (Forall2_rendered_empty_row _ _ _ Hshape). }
  rewrite Hnone in Hrun. exists w2. split; [done|]. split; [done|]. split; [done|].
  unfold launch_said.
  destruct (elems (QemuArgs config)) as [|row rows]; [by apply not_elem_of_nil in Hempty|].
  rewrite (decide_True (P := (0 < length (row :: rows))%nat)) by (simpl; lia).
  rewrite !elem_of_app. right. right. left.
Qed.

(** X16.  Without override rows getCommandArgs returns the defaults it
    has built and nothing else, one pair of key and value for each, up to
    order; it tells the UI no more than the warnings of the defaults, and
    it does not need the HTTP port in the state. *)
Theorem getCommandArgs_without_rows_returns_the_defaults ro bootDrive state config
    isoPath vncPort sshHostPort w :
  fair ro →
  state !! "config" = Some (VConfig config) →
  state !! "iso_path" = Some (VString isoPath) →
  state !! "vnc_port" = Some (VUint vncPort) →
  state !! "sshHostPort" = Some (VUint sshHostPort) →
  state !! "ui" = Some VUi →
  floppy_ok state →
  elems (QemuArgs config) = [] →
  ∃ defaultArgs w' groups,
    buildDefaultArgs arch filepath_Join strings_ToLower bootDrive state config
      isoPath vncPort sshHostPort w = Done defaultArgs w' ∧
    getCommandArgs arch Render filepath_Join strings_ToLower ro bootDrive state w
      = Done (Some (groups ≫= tokens), None) w' ∧
    groups ≡ₚ default_pair <$> map_to_list defaultArgs ∧
    length (groups ≫= tokens) = (2 * size defaultArgs)%nat.
Proof.
  intros Hfair Hconfig Hiso Hvnc Hssh Hui Hfloppy Hrows.
  destruct (buildDefaultArgs_spec bootDrive state config isoPath vncPort sshHostPort w Hfloppy)
    as (defaultArgs & w' & Hrun & _).
  destruct (mergeGroups_without_rows ro defaultArgs Hfair)
    as (groups & Hgroups & Hargs & Hperm & Hlen).
  exists defaultArgs, w', groups. split; [done|]. split; [|done].
  unfold getCommandArgs. rewrite Hconfig, Hiso, Hvnc, Hssh, Hui.
  cbn [as_Config as_string as_uint as_Ui]. unfold bind at 1 2 3 4 5 6. cbn [ret].
  rewrite Hrun. unfold bind, overrideQemuArgs. rewrite Hrows.
  rewrite decide_False by (simpl; lia). cbn [ret].
  unfold mergeArgs in Hargs. cbn [overrideArgs] in Hargs. by injection Hargs as ->.
Qed.

(** X17.  When a fragment of an override row fails to render, Run tells
    the UI its message, what getCommandArgs tells it, and last the error,
    under the heading of the override arguments; it returns the halt
    action and the driver is not called. *)
Theorem run_halts_when_rendering_fails ro (s : stepRun) state (d : Driver) config
    isoPath vncPort sshHostPort httpPort rowArgs parm err0 w :
  state !! "driver" = Some (VDriver d) →
  launch_state state config isoPath vncPort sshHostPort httpPort →
  floppy_ok state →
  rowArgs ∈ elems (QemuArgs config) → parm ∈ rowArgs →
  Render parm (qemuArgs_ctx config httpPort) = inr err0 →
  ∃ err w',
    first_failure Render (qemuArgs_ctx config httpPort) (mjoin (elems (QemuArgs config))) err ∧
    Run arch Render filepath_Join strings_ToLower ro s state w = Done ActionHalt w' ∧
    driver_calls w' = driver_calls w ∧
    ui_out w' = ui_out w ++ [UiSay (Message s)] ++ launch_said config ++
                [UiError ("Error processing QemuArggs: " +:+ err)].
Proof.
  intros Hdriver Hstate Hfloppy Hrow Hparm Hfail.
  destruct (renderRows_fails _ _ rowArgs parm err0 Hrow Hparm Hfail) as (err & Herr & Hfirst).
  exists err. unfold Run, bind at 1 2 3. rewrite Hdriver.
  destruct Hstate as (Hconfig & Hiso & Hvnc & Hssh & Hhttp & Hui). rewrite Hui.
  cbn [as_Driver as_Ui ret ui_Say].
  set (w1 := {| ui_out := _ |}).
  destruct (getCommandArgs_launch ro (BootDrive s) state config isoPath vncPort sshHostPort
              httpPort w1) as (defaultArgs & w2 & w3 & _ & Hcalls & Hsaid & Hrun);
    [done | done |].
  rewrite Herr in Hrun. unfold bind at 1. rewrite Hrun. unfold bind, ui_Error, ret.
  eexists. split; [done|]. split; [reflexivity|]. cbn [driver_calls ui_out].
  split; [by rewrite Hcalls|]. rewrite Hsaid. subst w1. cbn [ui_out].
  by rewrite <- !app_assoc.
Qed.

(** X18.  When every fragment renders and no row is empty, Run starts the
    driver exactly once, with the tokens that getCommandArgs returns; it
    returns the continue action when the driver reports no error, and
    otherwise the halt action after it has told that error to the UI. *)
Theorem run_starts_the_driver_once ro (s : stepRun) state (d : Driver) config
    isoPath vncPort sshHostPort httpPort w :
  state !! "driver" = Some (VDriver d) →
  launch_state state config isoPath vncPort sshHostPort httpPort →
  floppy_ok state →
  (∀ row parm, row ∈ elems (QemuArgs config) → parm ∈ row →
     ∃ s, Render parm (qemuArgs_ctx config httpPort) = inl s) →
  [] ∉ elems (QemuArgs config) →
  ∃ outArgs w1 w',
    getCommandArgs arch Render filepath_Join strings_ToLower ro (BootDrive s) state
      (final (ui_Say (Message s) w)) = Done (Some outArgs, None) w1 ∧
    Run arch Render filepath_Join strings_ToLower ro s state w =
      Done (match Qemu d outArgs with
            | None => ActionContinue
            | Some _ => ActionHalt
            end) w' ∧
    driver_calls w' = driver_calls w ++ [CallQemu outArgs] ∧
    ui_out w' = ui_out w ++ [UiSay (Message s)] ++ launch_said config ++
                match Qemu d outArgs with
                | None => []
                | Some err => [UiError ("Error launching VM: " +:+ err)]
                end.
Proof.
  intros Hdriver Hstate Hfloppy Hall Hnonempty.
  destruct (renderRows_all_render _ _ Hall) as (newArgs & Hrender & Hshape).
  unfold Run, bind at 1 2 3. rewrite Hdriver.
  pose proof Hstate as (_ & _ & _ & _ & _ & Hui). rewrite Hui.
  cbn [as_Driver as_Ui ret ui_Say final].
  set (w1 := {| ui_out := _ |}).
  destruct (getCommandArgs_launch ro (BootDrive s) state config isoPath vncPort sshHostPort
              httpPort w1 Hstate Hfloppy) as (defaultArgs & w2 & w3 & _ & Hcalls & Hsaid & Hrun).
  rewrite Hrender in Hrun.
  destruct (mergeArgs ro newArgs defaultArgs) as [outArgs|] eqn:Hmerge.
  - exists outArgs, w3. unfold bind at 1. rewrite Hrun.
    unfold bind, driver_Qemu, ui_Error, ret. cbn [elems default id].
    destruct (Qemu d outArgs) as [err|]; eexists;
      (split; [done|]); (split; [reflexivity|]); cbn [driver_calls ui_out];
      rewrite Hcalls, Hsaid; subst w1; cbn [ui_out driver_calls];
      (split; [done|]); by rewrite <- ?app_assoc, ?app_nil_r.
  - exfalso. apply mergeArgs_None_iff in Hmerge.
    by apply (Forall2_rendered_empty_row _ _ _ Hshape) in Hmerge.
Qed.


(** ** The guarantees of the merger, on getCommandArgs itself *)

(** On the state of a launch, with fragments that all render and no row
    without elements, getCommandArgs returns: the rows [O] are those that
    processArgs has rendered, the defaults [D] those that lines 66-106
    have built, [inArgs] is the map after lines 129-138, and the tokens
    are the groups of the flattening of its backfill. *)
Lemma getCommandArgs_synthesis ro bootDrive state config isoPath vncPort sshHostPort
    httpPort w :
  launch_state state config isoPath vncPort sshHostPort httpPort →
  floppy_ok state →
  (∀ row parm, row ∈ elems (QemuArgs config) → parm ∈ row →
     ∃ s, Render parm (qemuArgs_ctx config httpPort) = inl s) →
  [] ∉ elems (QemuArgs config) →
  ∃ O D inArgs groups w1 w',
    processArgs Render (QemuArgs config) (qemuArgs_ctx config httpPort) = (Some O, None) ∧
    buildDefaultArgs arch filepath_Join strings_ToLower bootDrive state config
      isoPath vncPort sshHostPort w = Done D w1 ∧
    D !! "-boot" = Some bootDrive ∧
    Forall (λ row, row ≠ []) O ∧
    overrideArgs ∅ O = Some inArgs ∧
    mergeGroups ro O D = Some groups ∧
    groups = flattenGroups ro (backfill ro D inArgs) ∧
    getCommandArgs arch Render filepath_Join strings_ToLower ro bootDrive state w =
      Done (Some (groups ≫= tokens), None) w'.
Proof.
  intros Hstate Hfloppy Hall Hnonempty.
  destruct (renderRows_all_render _ _ Hall) as (O & Hrender & Hshape).
  destruct (getCommandArgs_launch ro bootDrive state config isoPath vncPort sshHostPort
              httpPort w Hstate Hfloppy) as (D & w1 & w2 & Hbuild & _ & _ & Hrun).
  destruct (buildDefaultArgs_spec bootDrive state config isoPath vncPort sshHostPort w Hfloppy)
    as (D' & w1' & Hbuild' & _ & _ & _ & _ & Hboot & _).
  rewrite Hbuild in Hbuild'. injection Hbuild' as <- <-.
  assert (HO : Forall (λ row : list string, row ≠ []) O).
  { apply Forall_forall. intros row Hrow ->. apply Hnonempty.
    by apply (Forall2_rendered_empty_row _ _ _ Hshape). }
  destruct (proj2 (overrideArgs_is_Some O ∅) HO) as [inArgs HinArgs].
  exists O, D, inArgs, (flattenGroups ro (backfill ro D inArgs)), w1, w2.
  split; [|split; [done|]; split; [done|]; split; [done|]; split; [done|]; split; [|split; [done|]]].
  - unfold processArgs.
    destruct (QemuArgs config) as [rows|]; cbn [elems default id renderRows] in Hrender.
    + by rewrite Hrender.
    + by injection Hrender as <-.
  - unfold mergeGroups. by rewrite HinArgs.
  - rewrite Hrun, Hrender. unfold mergeArgs. rewrite HinArgs. by rewrite flatten_groups.
Qed.

(** C1.  On the state of a launch, with [O] the override rows as
    processArgs renders them and [D] the defaults as built, getCommandArgs
    returns a token sequence made of groups whose keys are exactly the
    keys of [O] and of [D]; the groups of a key are one key/value pair per
    value of its bucket, in bucket order, or the key alone when the bucket
    is empty.  For a key that heads a row of [O], also a row with an empty
    value, the bucket that is flattened is the one the rows have made:
    the loop over the defaults leaves it as it is, the values paired with
    the key are exactly the non-empty values of its rows, and the groups
    of the key would be the same with any other defaults. *)
Theorem getCommandArgs_one_group_per_bucket_value ro bootDrive state config
    isoPath vncPort sshHostPort httpPort w :
  fair ro →
  launch_state state config isoPath vncPort sshHostPort httpPort →
  floppy_ok state →
  (∀ row parm, row ∈ elems (QemuArgs config) → parm ∈ row →
     ∃ s, Render parm (qemuArgs_ctx config httpPort) = inl s) →
  [] ∉ elems (QemuArgs config) →
  ∃ O D inArgs groups w1 w',
    processArgs Render (QemuArgs config) (qemuArgs_ctx config httpPort) = (Some O, None) ∧
    buildDefaultArgs arch filepath_Join strings_ToLower bootDrive state config
      isoPath vncPort sshHostPort w = Done D w1 ∧
    overrideArgs ∅ O = Some inArgs ∧
    getCommandArgs arch Render filepath_Join strings_ToLower ro bootDrive state w =
      Done (Some (groups ≫= tokens), None) w' ∧
    (∀ k, k ∈ key_of <$> groups ↔ k ∈ override_keys O ∨ is_Some (D !! k)) ∧
    (∀ k values, bucket O D k = Some values →
       groups_of k groups =
         if decide (values = []) then [Bare k] else Pair k <$> values) ∧
    (∀ k, k ∈ override_keys O →
       inArgs !! k = Some (override_values k O) ∧
       backfill ro D inArgs !! k = inArgs !! k ∧
       values_of k groups = override_values k O ∧
       ∀ D' : gmap string string,
         groups_of k (flattenGroups ro (backfill ro D' inArgs)) = groups_of k groups).
Proof.
  intros Hfair Hstate Hfloppy Hall Hnonempty.
  destruct (getCommandArgs_synthesis ro bootDrive state config isoPath vncPort sshHostPort
              httpPort w Hstate Hfloppy Hall Hnonempty)
    as (O & D & inArgs & groups & w1 & w' & Hprocess & Hbuild & _ & HO & HinArgs & HG & Hgroups & Hrun).
  destruct (merge_one_group_per_bucket_value ro O D Hfair HO)
    as (groups' & HG' & _ & Hkeys & Hbuckets & Hover).
  rewrite HG in HG'. injection HG' as <-.
  exists O, D, inArgs, groups, w1, w'.
  split; [done|]. split; [done|]. split; [done|]. split; [done|].
  split; [done|]. split; [done|].
  intros k Hk.
  assert (Hin : inArgs !! k = Some (override_values k O)).
  { rewrite (overrideArgs_lookup O ∅ inArgs k HinArgs), decide_True by done.
    by rewrite lookup_empty. }
  split; [done|]. split; [by rewrite backfill_lookup, Hin|].
  split; [by apply Hover|].
  intros D'. rewrite Hgroups, !groups_of_flattenGroups, !backfill_lookup, Hin by done. done.
Qed.

(** C2.  On the state of a launch, with [O] the override rows as
    processArgs renders them: a key that heads rows of [O] is paired, in
    the tokens that getCommandArgs returns, with exactly the non-empty
    concatenated values of its rows, first row first, as many pairs as
    there are such rows; and it is not emitted bare when there is one. *)
Theorem getCommandArgs_override_values_in_row_order ro bootDrive state config
    isoPath vncPort sshHostPort httpPort w :
  fair ro →
  launch_state state config isoPath vncPort sshHostPort httpPort →
  floppy_ok state →
  (∀ row parm, row ∈ elems (QemuArgs config) → parm ∈ row →
     ∃ s, Render parm (qemuArgs_ctx config httpPort) = inl s) →
  [] ∉ elems (QemuArgs config) →
  ∃ O groups w',
    processArgs Render (QemuArgs config) (qemuArgs_ctx config httpPort) = (Some O, None) ∧
    getCommandArgs arch Render filepath_Join strings_ToLower ro bootDrive state w =
      Done (Some (groups ≫= tokens), None) w' ∧
    ∀ k, k ∈ override_keys O →
      values_of k groups = override_values k O ∧
      length (values_of k groups) = length (override_values k O) ∧
      (override_values k O ≠ [] → groups_of k groups = Pair k <$> override_values k O).
Proof.
  intros Hfair Hstate Hfloppy Hall Hnonempty.
  destruct (getCommandArgs_synthesis ro bootDrive state config isoPath vncPort sshHostPort
              httpPort w Hstate Hfloppy Hall Hnonempty)
    as (O & D & inArgs & groups & w1 & w' & Hprocess & _ & _ & HO & _ & HG & _ & Hrun).
  exists O, groups, w'. split; [done|]. split; [done|]. intros k Hk.
  destruct (override_values_in_row_order ro O D k Hfair HO Hk)
    as (groups' & HG' & _ & Hvalues & Hlength & Hpairs).
  rewrite HG in HG'. by injection HG' as <-.
Qed.


(** C10.  On the state of a launch, with [O] the override rows as
    processArgs renders them and [D] the defaults as built: a key of [D]
    that heads no row of [O] is emitted by getCommandArgs as the key
    immediately followed by its default, also when the default is the
    empty string, and never bare.  So it is for [-boot], whose default is
    the boot drive handed to getCommandArgs, empty or not.  A key of the
    rows, in contrast, is never paired with the empty string. *)
Theorem getCommandArgs_default_emitted_with_its_value ro bootDrive state config
    isoPath vncPort sshHostPort httpPort w :
  fair ro →
  launch_state state config isoPath vncPort sshHostPort httpPort →
  floppy_ok state →
  (∀ row parm, row ∈ elems (QemuArgs config) → parm ∈ row →
     ∃ s, Render parm (qemuArgs_ctx config httpPort) = inl s) →
  [] ∉ elems (QemuArgs config) →
  ∃ O D groups w1 w',
    processArgs Render (QemuArgs config) (qemuArgs_ctx config httpPort) = (Some O, None) ∧
    buildDefaultArgs arch filepath_Join strings_ToLower bootDrive state config
      isoPath vncPort sshHostPort w = Done D w1 ∧
    getCommandArgs arch Render filepath_Join strings_ToLower ro bootDrive state w =
      Done (Some (groups ≫= tokens), None) w' ∧
    (∀ k d, k ∉ override_keys O → D !! k = Some d →
       groups_of k groups = [Pair k d] ∧
       (Bare k ∉ groups) ∧
       ∃ before after, (groups ≫= tokens) = before ++ k :: d :: after) ∧
    ("-boot" ∉ override_keys O →
       groups_of "-boot" groups = [Pair "-boot" bootDrive] ∧
       ∃ before after, (groups ≫= tokens) = before ++ "-boot" :: bootDrive :: after) ∧
    (∀ k, k ∈ override_keys O → Pair k "" ∉ groups).
Proof.
  intros Hfair Hstate Hfloppy Hall Hnonempty.
  destruct (getCommandArgs_synthesis ro bootDrive state config isoPath vncPort sshHostPort
              httpPort w Hstate Hfloppy Hall Hnonempty)
    as (O & D & inArgs & groups & w1 & w' & Hprocess & Hbuild & Hboot & HO & _ & HG & _ & Hrun).
  exists O, D, groups, w1, w'. split; [done|]. split; [done|]. split; [done|].
  split; [|split].
  - intros k d Hk Hd.
    destruct (default_emitted_with_its_value ro O D k d Hfair HO Hk Hd)
      as (groups' & HG' & _ & Hpair & Hbare & Hsplit & _).
    rewrite HG in HG'. by injection HG' as <-.
  - intros Hk.
    destruct (default_emitted_with_its_value ro O D "-boot" bootDrive Hfair HO Hk Hboot)
      as (groups' & HG' & _ & Hpair & _ & Hsplit & _).
    rewrite HG in HG'. by injection HG' as <-.
  - intros k Hk Hpair. apply elem_of_values_of in Hpair.
    rewrite (merge_values_of ro O D groups k Hfair HG), bucket_override in Hpair by done.
    apply elem_of_override_values in Hpair as (rest & _ & _ & Hne). done.
Qed.


End StepRunProperties.

(** * The properties at concrete inputs *)

Lemma canonical_order_fair : fair canonical_order.
Proof. intros A l. reflexivity. Qed.

Lemma reverse_order_fair : fair reverse_order.
Proof. intros A l. apply reverse_Permutation. Qed.

Lemma example_rows_nonempty : Forall (λ row : list string, row ≠ []) example_rows.
Proof. unfold example_rows. repeat constructor; discriminate. Qed.

Lemma render_failure_aborts_synthesis_witness :
  ∃ err w',
    first_failure example_Render (qemuArgs_ctx example_config 8080)
      (mjoin [["-m"; "1024M"]; ["-serial"; "file:"; "{{ .Undefined }}"]]) err ∧
    processArgs example_Render
      (Some [["-m"; "1024M"]; ["-serial"; "file:"; "{{ .Undefined }}"]])
      (qemuArgs_ctx example_config 8080) = (None, Some err) ∧
    getCommandArgs Bits64 example_Render example_Join id canonical_order "c"
      example_state empty_world = Done (None, Some err) w'.
Proof.
  apply (render_failure_aborts_synthesis Bits64 example_Render example_Join id
           canonical_order "c" example_state example_config "install.iso" 5947 2222 8080
           [["-m"; "1024M"]; ["-serial"; "file:"; "{{ .Undefined }}"]]
           ["-serial"; "file:"; "{{ .Undefined }}"] "{{ .Undefined }}"
           "cannot render {{ .Undefined }}" empty_world).
  - repeat split; reflexivity.
  - left. reflexivity.
  - reflexivity.
  - right. left.
  - right. right. left.
  - reflexivity.
Defined.

Lemma synthesis_buckets_independent_of_order_witness :
  (∃ inArgs w',
     getCommandArgs Bits64 (λ parm _, inl parm) example_Join id canonical_order "c"
       example_state empty_world =
       Done (Some (flattenGroups canonical_order inArgs ≫= tokens), None) w' ∧
     getCommandArgs Bits64 (λ parm _, inl parm) example_Join id reverse_order "c"
       example_state empty_world =
       Done (Some (flattenGroups reverse_order inArgs ≫= tokens), None) w' ∧
     buckets_of (flattenGroups canonical_order inArgs) = inArgs ∧
     buckets_of (flattenGroups reverse_order inArgs) = inArgs) ∨
  (getCommandArgs Bits64 (λ parm _, inl parm) example_Join id canonical_order "c"
     example_state empty_world =
   getCommandArgs Bits64 (λ parm _, inl parm) example_Join id reverse_order "c"
     example_state empty_world ∧
   ∀ out err w',
     getCommandArgs Bits64 (λ parm _, inl parm) example_Join id canonical_order "c"
       example_state empty_world ≠ Done (Some out, err) w').
Proof.
  apply (proj1 (synthesis_buckets_independent_of_order Bits64 (λ parm _, inl parm)
                  example_Join id)
           canonical_order reverse_order "c" example_state empty_world).
  - intros A l. reflexivity.
  - intros A l. apply reverse_Permutation.
Defined.

Lemma headless_display_and_warning_witness :
  ∃ defaultArgs w' said,
    buildDefaultArgs Bits64 example_Join id "c" example_state example_config
      "install.iso" 5947 2222 empty_world = Done defaultArgs w' ∧
    ui_out w' = ui_out empty_world ++ said ∧
    (Headless example_config = true →
       defaultArgs !! "-display" = None ∧
       length (filter (λ e, e = UiMessage headless_warning) said) = 1%nat) ∧
    (Headless example_config = false →
       defaultArgs !! "-display" = Some "sdl" ∧
       UiMessage headless_warning ∉ said).
Proof.
  apply (headless_display_and_warning Bits64 example_Join id "c" example_state
           example_config "install.iso" 5947 2222 empty_world).
  left. reflexivity.
Defined.

Lemma vnc_default_is_port_minus_5900_witness :
  ∃ defaultArgs w',
    buildDefaultArgs Bits64 example_Join id "c" example_state example_config
      "install.iso" 5947 2222 empty_world = Done defaultArgs w' ∧
    defaultArgs !! "-vnc" = Some ("0.0.0.0:" +:+ fmt_uint (uint_sub Bits64 5947 5900)) ∧
    (5900 ≤ 5947 < uint_modulus Bits64 →
       defaultArgs !! "-vnc" = Some ("0.0.0.0:" +:+ pretty (5947 - 5900))).
Proof.
  apply (vnc_default_is_port_minus_5900 Bits64 example_Join id "c" example_state
           example_config "install.iso" 5947 2222 empty_world).
  left. reflexivity.
Defined.

Lemma vnc_port_wraps_around_witness :
  ∃ defaultArgs w' port,
    buildDefaultArgs Bits32 example_Join id "c" low_port_state example_config
      "install.iso" 5000 2222 empty_world = Done defaultArgs w' ∧
    defaultArgs !! "-vnc" = Some ("0.0.0.0:" +:+ fmt_uint port) ∧
    port = (5000 - 5900) mod 2 ^ bits Bits32 ∧
    0 ≤ port < 2 ^ bits Bits32 ∧
    (5000 < 5900 → port = 5000 + 2 ^ bits Bits32 - 5900 ∧ 2 ^ 32 - 5900 ≤ port).
Proof.
  apply (vnc_port_wraps_around Bits32 example_Join id "c" low_port_state
           example_config "install.iso" 5000 2222 empty_world).
  - left. reflexivity.
  - vm_compute. split; [discriminate | reflexivity].
Defined.

Lemma cleanup_stops_once_and_returns_witness :
  ∃ w',
    Cleanup {| BootDrive := "c"; Message := "Starting the virtual machine..." |}
      example_state empty_world = Done tt w' ∧
    driver_calls w' = driver_calls empty_world ++ [CallStop] ∧
    ui_out w' = ui_out empty_world ++
      match Stop example_driver with
      | Some err => [UiError ("Error shutting down VM: " +:+ err)]
      | None => []
      end ∧
    log_out w' = log_out empty_world.
Proof.
  apply (cleanup_stops_once_and_returns
           {| BootDrive := "c"; Message := "Starting the virtual machine..." |}
           example_state example_driver empty_world).
  - reflexivity.
  - reflexivity.
Defined.

(** The scenarios of the specification, evaluated. *)
Example scenario_defaults_only :
  mergeArgs canonical_order [] (<["-m" := "512M"]> (<["-boot" := "dc"]> ∅))
    = Some ["-m"; "512M"; "-boot"; "dc"] ∧
  mergeArgs reverse_order [] (<["-m" := "512M"]> (<["-boot" := "dc"]> ∅))
    = Some ["-boot"; "dc"; "-m"; "512M"].
Proof. split; reflexivity. Qed.

Example scenario_override_drops_default :
  mergeArgs canonical_order [["-machine"; "type=pc,accel=kvm"]] {["-machine" := "type=pc"]}
    = Some ["-machine"; "type=pc,accel=kvm"].
Proof. reflexivity. Qed.

Example scenario_override_restates_default :
  mergeArgs canonical_order [["-m"; "512M"]] {["-m" := "512M"]} = Some ["-m"; "512M"].
Proof. reflexivity. Qed.

Example scenario_repeated_key :
  mergeArgs canonical_order [["-device"; "virtio-net"]; ["-device"; "e1000"]] ∅
    = Some ["-device"; "virtio-net"; "-device"; "e1000"].
Proof. reflexivity. Qed.

Example scenario_example_rows :
  mergeGroups canonical_order example_rows example_defaults
    = Some [Pair "-m" "1024M"; Pair "-name" "vm"; Bare "-boot";
            Pair "-device" "virtio-net"; Pair "-device" "e1000"].
Proof. reflexivity. Qed.

Example scenario_empty_row_panics :
  mergeArgs canonical_order [["-m"; "1G"]; []] example_defaults = None.
Proof. reflexivity. Qed.

Example scenario_render_error :
  getCommandArgs Bits64 example_Render example_Join id canonical_order "c"
    example_state empty_world
  = Done (None, Some "cannot render {{ .Undefined }}")
      {| ui_out := [UiMessage headless_warning; UiSay overriding_message];
         driver_calls := [];
         log_out := ["Qemu Builder has no floppy files, not attaching a floppy."] |}.
Proof. reflexivity. Qed.

Example scenario_low_port :
  ∃ defaultArgs w',
    buildDefaultArgs Bits64 example_Join id "c" low_port_state example_config
      "install.iso" 5000 2222 empty_world = Done defaultArgs w' ∧
    defaultArgs !! "-vnc" = Some "0.0.0.0:18446744073709550716".
Proof. eexists _, _. split; vm_compute; reflexivity. Qed.

(** * The further properties at concrete inputs *)

Lemma merge_reads_key_and_joined_value_witness :
  mergeArgs canonical_order [["-m"; "10"; "24M"]; ["-boot"; ""]] example_defaults =
  mergeArgs canonical_order [["-m"; "1024M"]; ["-boot"]] example_defaults.
Proof.
  apply (merge_reads_key_and_joined_value canonical_order
           [["-m"; "10"; "24M"]; ["-boot"; ""]] [["-m"; "1024M"]; ["-boot"]]
           example_defaults).
  reflexivity.
Defined.

Lemma merge_rows_of_distinct_keys_commute_witness :
  mergeArgs canonical_order
    ([["-device"; "virtio-net"]] ++ ["-m"; "1G"] :: ["-device"; "e1000"] :: [["-boot"]])
    example_defaults =
  mergeArgs canonical_order
    ([["-device"; "virtio-net"]] ++ ["-device"; "e1000"] :: ["-m"; "1G"] :: [["-boot"]])
    example_defaults.
Proof.
  apply (merge_rows_of_distinct_keys_commute canonical_order [["-device"; "virtio-net"]]
           [["-boot"]] ["-m"; "1G"] ["-device"; "e1000"] example_defaults).
  simpl. discriminate.
Defined.

Lemma merge_outputs_are_permutations_witness :
  ∃ groups2,
    mergeGroups reverse_order example_rows example_defaults = Some groups2 ∧
    mergeArgs canonical_order example_rows example_defaults
      = Some ([Pair "-m" "1024M"; Pair "-name" "vm"; Bare "-boot";
               Pair "-device" "virtio-net"; Pair "-device" "e1000"] ≫= tokens) ∧
    mergeArgs reverse_order example_rows example_defaults = Some (groups2 ≫= tokens) ∧
    [Pair "-m" "1024M"; Pair "-name" "vm"; Bare "-boot";
     Pair "-device" "virtio-net"; Pair "-device" "e1000"] ≡ₚ groups2 ∧
    ([Pair "-m" "1024M"; Pair "-name" "vm"; Bare "-boot";
      Pair "-device" "virtio-net"; Pair "-device" "e1000"] ≫= tokens)
      ≡ₚ (groups2 ≫= tokens) ∧
    length ([Pair "-m" "1024M"; Pair "-name" "vm"; Bare "-boot";
             Pair "-device" "virtio-net"; Pair "-device" "e1000"] ≫= tokens)
      = length (groups2 ≫= tokens).
Proof.
  apply (merge_outputs_are_permutations canonical_order reverse_order example_rows
           example_defaults).
  - intros A l. reflexivity.
  - intros A l. apply reverse_Permutation.
  - reflexivity.
Defined.



Lemma processArgs_keeps_the_shape_witness :
  ∃ newArgs,
    processArgs example_Render (QemuArgs plain_config) (qemuArgs_ctx plain_config 8080)
      = (Some newArgs, None) ∧
    Forall2 (Forall2 (λ p s, example_Render p (qemuArgs_ctx plain_config 8080) = inl s))
      (elems (QemuArgs plain_config)) newArgs ∧
    length <$> newArgs = length <$> elems (QemuArgs plain_config).
Proof.
  apply (processArgs_keeps_the_shape example_Render (QemuArgs plain_config)
           (qemuArgs_ctx plain_config 8080)).
  intros row parm Hrow Hparm. exists parm. simpl in Hrow.
  repeat (apply elem_of_cons in Hrow as [->|Hrow];
          [repeat (apply elem_of_cons in Hparm as [->|Hparm]; [reflexivity|]);
           by apply not_elem_of_nil in Hparm|]).
  by apply not_elem_of_nil in Hrow.
Defined.

Lemma getCommandArgs_panics_on_a_missing_entry_witness :
  getCommandArgs Bits64 example_Render example_Join id canonical_order "c"
    (delete "iso_path" example_state) empty_world = Panicked empty_world.
Proof.
  apply (getCommandArgs_panics_on_a_missing_entry Bits64 example_Render example_Join id
           canonical_order "c" (delete "iso_path" example_state) empty_world).
  right. left. reflexivity.
Defined.

Lemma defaults_have_exactly_these_keys_witness :
  ∃ defaultArgs w',
    buildDefaultArgs Bits64 example_Join id "c" plain_state plain_config
      "install.iso" 5947 2222 empty_world = Done defaultArgs w' ∧
    dom defaultArgs = default_keys plain_state plain_config.
Proof.
  apply (defaults_have_exactly_these_keys Bits64 example_Join id "c" plain_state
           plain_config "install.iso" 5947 2222 empty_world).
  right. exists "floppy.img". reflexivity.
Defined.

Lemma machine_default_and_acceleration_warning_witness :
  ∃ defaultArgs w' said,
    buildDefaultArgs Bits64 example_Join id "c" plain_state plain_config
      "install.iso" 5947 2222 empty_world = Done defaultArgs w' ∧
    ui_out w' = ui_out empty_world ++ said ∧
    (Accelerator plain_config ≠ "none" →
       defaultArgs !! "-machine" =
         Some (("type=" +:+ MachineType plain_config) +:+
               ",accel=" +:+ Accelerator plain_config) ∧
       UiMessage no_accel_warning ∉ said) ∧
    (Accelerator plain_config = "none" →
       defaultArgs !! "-machine" = Some ("type=" +:+ MachineType plain_config) ∧
       length (filter (λ e, e = UiMessage no_accel_warning) said) = 1%nat).
Proof.
  apply (machine_default_and_acceleration_warning Bits64 example_Join id "c" plain_state
           plain_config "install.iso" 5947 2222 empty_world).
  right. exists "floppy.img". reflexivity.
Defined.

Lemma cdrom_and_floppy_defaults_witness :
  ∃ defaultArgs w',
    buildDefaultArgs Bits64 example_Join id "c" plain_state plain_config
      "install.iso" 5947 2222 empty_world = Done defaultArgs w' ∧
    defaultArgs !! "-cdrom" = (if DiskImage plain_config then None else Some "install.iso") ∧
    (∀ path, plain_state !! "floppy_path" = Some (VString path) →
       defaultArgs !! "-fda" = Some path ∧ log_out w' = log_out empty_world) ∧
    (plain_state !! "floppy_path" = None →
       defaultArgs !! "-fda" = None ∧
       log_out w' = log_out empty_world ++
         ["Qemu Builder has no floppy files, not attaching a floppy."]).
Proof.
  apply (cdrom_and_floppy_defaults Bits64 example_Join id "c" plain_state
           plain_config "install.iso" 5947 2222 empty_world).
  right. exists "floppy.img". reflexivity.
Defined.

Lemma distinct_ports_give_distinct_vnc_defaults_witness :
  ∃ defaultArgs1 w1 defaultArgs2 w2,
    buildDefaultArgs Bits32 example_Join id "c" example_state example_config
      "install.iso" 5000 2222 empty_world = Done defaultArgs1 w1 ∧
    buildDefaultArgs Bits32 example_Join id "c" example_state example_config
      "install.iso" 5947 2222 empty_world = Done defaultArgs2 w2 ∧
    defaultArgs1 !! "-vnc" ≠ defaultArgs2 !! "-vnc".
Proof.
  apply (distinct_ports_give_distinct_vnc_defaults Bits32 example_Join id "c" example_state
           example_config "install.iso" 5000 5947 2222 empty_world).
  - left. reflexivity.
  - vm_compute. split; [discriminate | reflexivity].
  - vm_compute. split; [discriminate | reflexivity].
  - discriminate.
Defined.

Lemma getCommandArgs_panics_on_an_empty_row_witness :
  ∃ w',
    getCommandArgs Bits64 example_Render example_Join id canonical_order "c"
      empty_row_state empty_world = Panicked w' ∧
    driver_calls w' = driver_calls empty_world ∧
    ui_out w' = ui_out empty_world ++ launch_said empty_row_config ∧
    UiSay overriding_message ∈ launch_said empty_row_config.
Proof.
  apply (getCommandArgs_panics_on_an_empty_row Bits64 example_Render example_Join id
           canonical_order "c" empty_row_state empty_row_config "install.iso" 5947 2222
           8080 empty_world).
  - repeat split; reflexivity.
  - left. reflexivity.
  - intros row parm Hrow Hparm. exists parm. simpl in Hrow.
    repeat (apply elem_of_cons in Hrow as [->|Hrow];
            [repeat (apply elem_of_cons in Hparm as [->|Hparm]; [reflexivity|]);
             by apply not_elem_of_nil in Hparm|]).
    by apply not_elem_of_nil in Hrow.
  - simpl. right. left.
Defined.

Lemma getCommandArgs_without_rows_returns_the_defaults_witness :
  ∃ defaultArgs w' groups,
    buildDefaultArgs Bits64 example_Join id "c" no_rows_state no_rows_config
      "install.iso" 5947 2222 empty_world = Done defaultArgs w' ∧
    getCommandArgs Bits64 example_Render example_Join id reverse_order "c"
      no_rows_state empty_world = Done (Some (groups ≫= tokens), None) w' ∧
    groups ≡ₚ default_pair <$> map_to_list defaultArgs ∧
    length (groups ≫= tokens) = (2 * size defaultArgs)%nat.
Proof.
  apply (getCommandArgs_without_rows_returns_the_defaults Bits64 example_Render
           example_Join id reverse_order "c" no_rows_state no_rows_config
           "install.iso" 5947 2222 empty_world).
  - intros A l. apply reverse_Permutation.
  - reflexivity.
  - reflexivity.
  - reflexivity.
  - reflexivity.
  - reflexivity.
  - left. reflexivity.
  - reflexivity.
Defined.

Lemma run_halts_when_rendering_fails_witness :
  ∃ err w',
    first_failure example_Render (qemuArgs_ctx example_config 8080)
      (mjoin (elems (QemuArgs example_config))) err ∧
    Run Bits64 example_Render example_Join id canonical_order example_step
      example_state empty_world = Done ActionHalt w' ∧
    driver_calls w' = driver_calls empty_world ∧
    ui_out w' = ui_out empty_world ++ [UiSay (Message example_step)] ++
                launch_said example_config ++
                [UiError ("Error processing QemuArggs: " +:+ err)].
Proof.
  apply (run_halts_when_rendering_fails Bits64 example_Render example_Join id
           canonical_order example_step example_state example_driver example_config
           "install.iso" 5947 2222 8080 ["-serial"; "file:"; "{{ .Undefined }}"]
           "{{ .Undefined }}" "cannot render {{ .Undefined }}" empty_world).
  - reflexivity.
  - repeat split; reflexivity.
  - left. reflexivity.
  - simpl. right. left.
  - right. right. left.
  - reflexivity.
Defined.

Lemma run_starts_the_driver_once_witness :
  ∃ outArgs w1 w',
    getCommandArgs Bits64 example_Render example_Join id canonical_order
      (BootDrive example_step) plain_state
      (final (ui_Say (Message example_step) empty_world)) = Done (Some outArgs, None) w1 ∧
    Run Bits64 example_Render example_Join id canonical_order example_step
      plain_state empty_world =
      Done (match Qemu example_driver outArgs with
            | None => ActionContinue
            | Some _ => ActionHalt
            end) w' ∧
    driver_calls w' = driver_calls empty_world ++ [CallQemu outArgs] ∧
    ui_out w' = ui_out empty_world ++ [UiSay (Message example_step)] ++
                launch_said plain_config ++
                match Qemu example_driver outArgs with
                | None => []
                | Some err => [UiError ("Error launching VM: " +:+ err)]
                end.
Proof.
  apply (run_starts_the_driver_once Bits64 example_Render example_Join id
           canonical_order example_step plain_state example_driver plain_config
           "install.iso" 5947 2222 8080 empty_world).
  - reflexivity.
  - repeat split; reflexivity.
  - right. exists "floppy.img". reflexivity.
  - intros row parm Hrow Hparm. exists parm. simpl in Hrow.
    repeat (apply elem_of_cons in Hrow as [->|Hrow];
            [repeat (apply elem_of_cons in Hparm as [->|Hparm]; [reflexivity|]);
             by apply not_elem_of_nil in Hparm|]).
    by apply not_elem_of_nil in Hrow.
  - simpl. intros Hin.
    repeat (apply elem_of_cons in Hin as [Hin|Hin]; [discriminate Hin|]).
    by apply not_elem_of_nil in Hin.
Defined.

(** * The guarantees of the merger at a concrete launch *)

(** Every fragment of a given list of rows renders, and none of the rows
    is empty: by going through the rows. *)
Ltac rows_render :=
  let row := fresh "row" in
  let parm := fresh "parm" in
  let Hrow := fresh "Hrow" in
  let Hparm := fresh "Hparm" in
  intros row parm Hrow Hparm; exists parm; vm_compute in Hrow;
  repeat (apply elem_of_cons in Hrow as [->|Hrow];
          [repeat (apply elem_of_cons in Hparm as [->|Hparm]; [reflexivity|]);
           by apply not_elem_of_nil in Hparm|]);
  by apply not_elem_of_nil in Hrow.

Ltac rows_nonempty :=
  let Hin := fresh "Hin" in
  vm_compute; intros Hin;
  repeat (apply elem_of_cons in Hin as [Hin|Hin]; [discriminate Hin|]);
  by apply not_elem_of_nil in Hin.

Lemma getCommandArgs_one_group_per_bucket_value_witness :
  ∃ O D inArgs groups w1 w',
    processArgs example_Render (QemuArgs rows_config) (qemuArgs_ctx rows_config 8080)
      = (Some O, None) ∧
    buildDefaultArgs Bits64 example_Join id "c" rows_state rows_config
      "install.iso" 5947 2222 empty_world = Done D w1 ∧
    overrideArgs ∅ O = Some inArgs ∧
    getCommandArgs Bits64 example_Render example_Join id canonical_order "c"
      rows_state empty_world = Done (Some (groups ≫= tokens), None) w' ∧
    (∀ k, k ∈ key_of <$> groups ↔ k ∈ override_keys O ∨ is_Some (D !! k)) ∧
    (∀ k values, bucket O D k = Some values →
       groups_of k groups =
         if decide (values = []) then [Bare k] else Pair k <$> values) ∧
    (∀ k, k ∈ override_keys O →
       inArgs !! k = Some (override_values k O) ∧
       backfill canonical_order D inArgs !! k = inArgs !! k ∧
       values_of k groups = override_values k O ∧
       ∀ D' : gmap string string,
         groups_of k (flattenGroups canonical_order (backfill canonical_order D' inArgs))
           = groups_of k groups).
Proof.
  apply (getCommandArgs_one_group_per_bucket_value Bits64 example_Render example_Join id
           canonical_order "c" rows_state rows_config "install.iso" 5947 2222 8080
           empty_world).
  - intros A l. reflexivity.
  - repeat split; reflexivity.
  - left. reflexivity.
  - rows_render.
  - rows_nonempty.
Defined.

Lemma getCommandArgs_override_values_in_row_order_witness :
  ∃ O groups w',
    processArgs example_Render (QemuArgs rows_config) (qemuArgs_ctx rows_config 8080)
      = (Some O, None) ∧
    getCommandArgs Bits64 example_Render example_Join id reverse_order "c"
      rows_state empty_world = Done (Some (groups ≫= tokens), None) w' ∧
    ∀ k, k ∈ override_keys O →
      values_of k groups = override_values k O ∧
      length (values_of k groups) = length (override_values k O) ∧
      (override_values k O ≠ [] → groups_of k groups = Pair k <$> override_values k O).
Proof.
  apply (getCommandArgs_override_values_in_row_order Bits64 example_Render example_Join id
           reverse_order "c" rows_state rows_config "install.iso" 5947 2222 8080
           empty_world).
  - intros A l. apply reverse_Permutation.
  - repeat split; reflexivity.
  - left. reflexivity.
  - rows_render.
  - rows_nonempty.
Defined.


Lemma getCommandArgs_default_emitted_with_its_value_witness :
  ∃ O D groups w1 w',
    processArgs example_Render (QemuArgs plain_config) (qemuArgs_ctx plain_config 8080)
      = (Some O, None) ∧
    buildDefaultArgs Bits64 example_Join id "" plain_state plain_config
      "install.iso" 5947 2222 empty_world = Done D w1 ∧
    getCommandArgs Bits64 example_Render example_Join id canonical_order ""
      plain_state empty_world = Done (Some (groups ≫= tokens), None) w' ∧
    (∀ k d, k ∉ override_keys O → D !! k = Some d →
       groups_of k groups = [Pair k d] ∧
       (Bare k ∉ groups) ∧
       ∃ before after, (groups ≫= tokens) = before ++ k :: d :: after) ∧
    ("-boot" ∉ override_keys O →
       groups_of "-boot" groups = [Pair "-boot" ""] ∧
       ∃ before after, (groups ≫= tokens) = before ++ "-boot" :: "" :: after) ∧
    (∀ k, k ∈ override_keys O → Pair k "" ∉ groups).
Proof.
  apply (getCommandArgs_default_emitted_with_its_value Bits64 example_Render example_Join id
           canonical_order "" plain_state plain_config "install.iso" 5947 2222 8080
           empty_world).
  - intros A l. reflexivity.
  - repeat split; reflexivity.
  - right. exists "floppy.img". reflexivity.
  - rows_render.
  - rows_nonempty.
Defined.

(** The launch with [example_rows], evaluated: [-boot] is bare, [-device]
    has its two values in row order, [-m] has the value of its row. *)
Example scenario_launch_with_rows :
  getCommandArgs Bits64 example_Render example_Join id canonical_order "c"
    rows_state empty_world
  = Done (Some ["-machine"; "type=pc"; "-m"; "1024M";
                "-netdev"; "user,id=user.0,hostfwd=tcp::2222-:22";
                "-name"; "packer-vm"; "-vnc"; "0.0.0.0:47"; "-boot";
                "-device"; "virtio-net"; "-device"; "e1000"; "-display"; "sdl";
                "-drive"; "file=output/packer-vm.qcow2,if=virtio,cache=writeback,discard=ignore"],
          None)
      {| ui_out := [UiMessage no_accel_warning; UiSay overriding_message];
         driver_calls := [];
         log_out := ["Qemu Builder has no floppy files, not attaching a floppy."] |}.
Proof. vm_compute. reflexivity. Qed.
